(** * The gesture classifier of composables/useDoubleClick.js

    A shallow embedding of [useDoubleClick]: the refs of the composable, the
    host's timer table ([setTimeout] / [clearTimeout]), the optional callbacks
    (which may throw) and the five event handlers, followed by the properties
    of the classifier.

    Conventions of the embedding:
    - JavaScript numbers that hold millisecond timestamps and counters are
      integers ([Z]); no arithmetic of the composable leaves the integers.
    - A timer id returned by [setTimeout] is a [positive]: ids are nonzero,
      hence truthy, and the host never reuses one.  A ref that holds a timer
      id or [null] is an [option positive].
    - [Date.now()] is the field [now] of the world, set by the host when it
      delivers an event or runs a timer callback.
    - The host keeps the delay of a timer as a signed 32-bit number: a delay
      that does not fit makes the timer due at once ([timerDelay]).
    - A callback supplied through the options is external code.  It receives
      the event, does not touch the session, and either returns or throws:
      it is modelled by a function to [bool] ([true]: returns normally).
    - The world carries a trace that records each callback invocation (with
      the refs and pending timers at that instant) and each session reset;
      the trace is observation only and no handler reads it. *)

From Stdlib Require Import ZArith Bool List Lia.
From stdpp Require Import base option list gmap fin_maps strings pretty.

Local Open Scope Z_scope.

(** ** Data model *)

(** The raw event object handed to a handler (and passed on to callbacks);
    only its identity matters. *)
Definition Event := nat.

(** The three semantic callbacks. *)
Inductive Callback :=
| SingleClick (ev : Event)
| DoubleClick (ev : Event)
| LongPress (ev : Event).

(** [options] of [useDoubleClick] (lines 17-23).  A callback that is [null]
    is [None]. *)
Record Options := {
  delay : Z;
  onSingleClick : option (Event → bool);
  onDoubleClick : option (Event → bool);
  onLongPress : option (Event → bool);
  longPressDelay : Z
}.

(** The defaults of lines 18-22 with the three callbacks of the demo page,
    none of which throws. *)
Definition defaultOptions : Options :=
  {| delay := 300;
     onSingleClick := Some (λ _, true);
     onDoubleClick := Some (λ _, true);
     onLongPress := Some (λ _, true);
     longPressDelay := 800 |}.

(** The refs of lines 26-34. *)
Record Refs := {
  clickCount : Z;
  isLongPress : bool;
  touchStartTime : Z;
  singleClickTimer : option positive;
  longPressTimer : option positive;
  lastClickTime : Z;
  isDoubleClickProcessed : bool;
  suppressClickUntil : Z;
  suppressTimer : option positive
}.

Definition initRefs : Refs :=
  {| clickCount := 0; isLongPress := false; touchStartTime := 0;
     singleClickTimer := None; longPressTimer := None; lastClickTime := 0;
     isDoubleClickProcessed := false; suppressClickUntil := 0;
     suppressTimer := None |}.

Definition set_clickCount (v : Z) (r : Refs) : Refs :=
  {| clickCount := v; isLongPress := isLongPress r;
     touchStartTime := touchStartTime r;
     singleClickTimer := singleClickTimer r;
     longPressTimer := longPressTimer r; lastClickTime := lastClickTime r;
     isDoubleClickProcessed := isDoubleClickProcessed r;
     suppressClickUntil := suppressClickUntil r;
     suppressTimer := suppressTimer r |}.

Definition set_isLongPress (v : bool) (r : Refs) : Refs :=
  {| clickCount := clickCount r; isLongPress := v;
     touchStartTime := touchStartTime r;
     singleClickTimer := singleClickTimer r;
     longPressTimer := longPressTimer r; lastClickTime := lastClickTime r;
     isDoubleClickProcessed := isDoubleClickProcessed r;
     suppressClickUntil := suppressClickUntil r;
     suppressTimer := suppressTimer r |}.

Definition set_touchStartTime (v : Z) (r : Refs) : Refs :=
  {| clickCount := clickCount r; isLongPress := isLongPress r;
     touchStartTime := v;
     singleClickTimer := singleClickTimer r;
     longPressTimer := longPressTimer r; lastClickTime := lastClickTime r;
     isDoubleClickProcessed := isDoubleClickProcessed r;
     suppressClickUntil := suppressClickUntil r;
     suppressTimer := suppressTimer r |}.

Definition set_singleClickTimer (v : option positive) (r : Refs) : Refs :=
  {| clickCount := clickCount r; isLongPress := isLongPress r;
     touchStartTime := touchStartTime r;
     singleClickTimer := v;
     longPressTimer := longPressTimer r; lastClickTime := lastClickTime r;
     isDoubleClickProcessed := isDoubleClickProcessed r;
     suppressClickUntil := suppressClickUntil r;
     suppressTimer := suppressTimer r |}.

Definition set_longPressTimer (v : option positive) (r : Refs) : Refs :=
  {| clickCount := clickCount r; isLongPress := isLongPress r;
     touchStartTime := touchStartTime r;
     singleClickTimer := singleClickTimer r;
     longPressTimer := v; lastClickTime := lastClickTime r;
     isDoubleClickProcessed := isDoubleClickProcessed r;
     suppressClickUntil := suppressClickUntil r;
     suppressTimer := suppressTimer r |}.

Definition set_lastClickTime (v : Z) (r : Refs) : Refs :=
  {| clickCount := clickCount r; isLongPress := isLongPress r;
     touchStartTime := touchStartTime r;
     singleClickTimer := singleClickTimer r;
     longPressTimer := longPressTimer r; lastClickTime := v;
     isDoubleClickProcessed := isDoubleClickProcessed r;
     suppressClickUntil := suppressClickUntil r;
     suppressTimer := suppressTimer r |}.

Definition set_isDoubleClickProcessed (v : bool) (r : Refs) : Refs :=
  {| clickCount := clickCount r; isLongPress := isLongPress r;
     touchStartTime := touchStartTime r;
     singleClickTimer := singleClickTimer r;
     longPressTimer := longPressTimer r; lastClickTime := lastClickTime r;
     isDoubleClickProcessed := v;
     suppressClickUntil := suppressClickUntil r;
     suppressTimer := suppressTimer r |}.

Definition set_suppressClickUntil (v : Z) (r : Refs) : Refs :=
  {| clickCount := clickCount r; isLongPress := isLongPress r;
     touchStartTime := touchStartTime r;
     singleClickTimer := singleClickTimer r;
     longPressTimer := longPressTimer r; lastClickTime := lastClickTime r;
     isDoubleClickProcessed := isDoubleClickProcessed r;
     suppressClickUntil := v;
     suppressTimer := suppressTimer r |}.

Definition set_suppressTimer (v : option positive) (r : Refs) : Refs :=
  {| clickCount := clickCount r; isLongPress := isLongPress r;
     touchStartTime := touchStartTime r;
     singleClickTimer := singleClickTimer r;
     longPressTimer := longPressTimer r; lastClickTime := lastClickTime r;
     isDoubleClickProcessed := isDoubleClickProcessed r;
     suppressClickUntil := suppressClickUntil r;
     suppressTimer := v |}.

(** The function a timer runs when it fires: one constructor per arrow
    function handed to [setTimeout], with the event it closes over. *)
Inductive TimerBody :=
| LongPressBody (ev : Event)      (* lines 73-77 *)
| SingleClickBody (ev : Event)    (* lines 122-131 and 195-204, same text *)
| SuppressBody.                   (* lines 151-154 *)

Record Timer := { due : Z; body : TimerBody }.

(** What an observer of the classifier sees: a callback being invoked, at
    which time and with which refs and pending timers, and the session being
    reset ([resetState] entered). *)
Inductive Obs :=
| Invoked (t : Z) (cb : Callback) (r : Refs) (p : gmap positive Timer)
| SessionReset.

(** The session together with the host: the refs, the host's table of
    timers that were set and have neither fired nor been cleared, the next
    timer id, the clock and the trace of observations (oldest first). *)
Record World := {
  refs : Refs;
  pool : gmap positive Timer;
  nextId : positive;
  now : Z;
  log : list Obs
}.

Definition initWorld : World :=
  {| refs := initRefs; pool := ∅; nextId := 1%positive; now := 0; log := [] |}.

Definition set_refs (v : Refs) (w : World) : World :=
  {| refs := v; pool := pool w; nextId := nextId w; now := now w;
     log := log w |}.

Definition set_pool (v : gmap positive Timer) (w : World) : World :=
  {| refs := refs w; pool := v; nextId := nextId w; now := now w;
     log := log w |}.

Definition set_now (v : Z) (w : World) : World :=
  {| refs := refs w; pool := pool w; nextId := nextId w; now := v;
     log := log w |}.

Definition set_log (v : list Obs) (w : World) : World :=
  {| refs := refs w; pool := pool w; nextId := nextId w; now := now w;
     log := v |}.

(** ** The monad of handlers: state passing over [World], with exceptions *)

Inductive Result (A : Type) :=
| Ok (a : A) (w : World)
| Thrown (w : World).
Arguments Ok {A} a w.
Arguments Thrown {A} w.

Definition M (A : Type) : Type := World → Result A.

Definition ret {A} (a : A) : M A := λ w, Ok a w.

Definition bind {A B} (m : M A) (k : A → M B) : M B :=
  λ w, match m w with
       | Ok a w' => k a w'
       | Thrown w' => Thrown w'
       end.

Notation "'let!' x ':=' m 'in' k" := (bind m (λ x, k))
  (at level 10, x name, m at level 100, k at level 200,
   format "'[v' 'let!'  x  ':='  m  'in' '/' k ']'").
Notation "m '>>' k" := (bind m (λ _, k))
  (at level 100, k at level 200, right associativity,
   format "'[v' m  '>>' '/' k ']'").

(** The world a computation leaves behind, whether it returned or threw. *)
Definition worldOf {A} (r : Result A) : World :=
  match r with Ok _ w => w | Thrown w => w end.

Definition returned {A} (r : Result A) : bool :=
  match r with Ok _ _ => true | Thrown _ => false end.

Definition get {A} (f : Refs → A) : M A := λ w, Ok (f (refs w)) w.

Definition modify (f : Refs → Refs) : M unit :=
  λ w, Ok tt (set_refs (f (refs w)) w).

Definition dateNow : M Z := λ w, Ok (now w) w.

(** The host keeps the delay of a timer as a signed 32-bit number of
    milliseconds. *)
Definition maxTimerDelay : Z := 2147483647.

(** The delay the host uses for [setTimeout(f, ms)]: [ms] itself when it
    fits; a negative delay counts as 0, and a delay above [maxTimerDelay]
    overflows, which makes the timer due at once. *)
Definition timerDelay (ms : Z) : Z :=
  if ms <=? maxTimerDelay then Z.max 0 ms else 0.

(** [setTimeout(f, ms)]. *)
Definition setTimeout (b : TimerBody) (ms : Z) : M positive :=
  λ w, Ok (nextId w)
          {| refs := refs w;
             pool := <[nextId w := {| due := now w + timerDelay ms; body := b |}]>
                       (pool w);
             nextId := Pos.succ (nextId w); now := now w; log := log w |}.

Definition clearTimeout (id : positive) : M unit :=
  λ w, Ok tt (set_pool (delete id (pool w)) w).

Definition observe (o : Obs) : M unit :=
  λ w, Ok tt (set_log (log w ++ [o]) w).

(** [if (cb) { cb(event) }]: nothing when the callback is [null]; otherwise
    the invocation is observed and the callback returns or throws. *)
Definition invoke (cb : option (Event → bool)) (mk : Event → Callback)
    (ev : Event) : M unit :=
  match cb with
  | None => ret tt
  | Some f =>
      λ w, let w' := set_log (log w ++ [Invoked (now w) (mk ev) (refs w) (pool w)]) w in
           if f ev then Ok tt w' else Thrown w'
  end.

(** ** The composable *)

(** The debounce test of lines 95 and 175. *)
Definition debounced (t last : Z) : bool := t - last <? 50.

(** [if (r.value) { clearTimeout(r.value); r.value = null }] for one of the
    three timer refs. *)
Definition clearTimer (rd : Refs → option positive)
    (wr : option positive → Refs → Refs) : M unit :=
  let! r := get rd in
  match r with
  | Some id => clearTimeout id >> modify (wr None)
  | None => ret tt
  end.

(** Lines 37-50. *)
Definition clearAllTimers : M unit :=
  clearTimer singleClickTimer set_singleClickTimer >>
  clearTimer longPressTimer set_longPressTimer >>
  clearTimer suppressTimer set_suppressTimer.

(** Lines 53-63.  The first step is not in the source: it records in the
    trace that the session is being reset. *)
Definition resetState (preserveSuppression : bool) : M unit :=
  observe SessionReset >>
  modify (set_clickCount 0) >>
  modify (set_isLongPress false) >>
  modify (set_touchStartTime 0) >>
  modify (set_lastClickTime 0) >>
  modify (set_isDoubleClickProcessed false) >>
  (if negb preserveSuppression then modify (set_suppressClickUntil 0)
   else ret tt) >>
  clearAllTimers.

Section Composable.

Variable opts : Options.

(** Lines 66-79. *)
Definition handleTouchStart (event : Event) : M unit :=
  let! t := dateNow in
  modify (set_touchStartTime t) >>
  modify (set_isLongPress false) >>
  match onLongPress opts with
  | Some _ =>
      let! id := setTimeout (LongPressBody event) (longPressDelay opts) in
      modify (set_longPressTimer (Some id))
  | None => ret tt
  end.

(** Lines 82-87. *)
Definition handleTouchMove : M unit :=
  clearTimer longPressTimer set_longPressTimer.

(** Lines 90-161. *)
Definition handleTouchEnd (event : Event) : M unit :=
  let! currentTime := dateNow in
  let! last := get lastClickTime in
  if debounced currentTime last then ret tt
  else
    modify (set_lastClickTime currentTime) >>
    let! start := get touchStartTime in
    let touchDuration := currentTime - start in
    clearTimer longPressTimer set_longPressTimer >>
    let! lp := get isLongPress in
    if lp || (longPressDelay opts <=? touchDuration) then resetState false
    else
      modify (λ r, set_clickCount (clickCount r + 1) r) >>
      let! c := get clickCount in
      if c =? 1 then
        let! id := setTimeout (SingleClickBody event) (delay opts) in
        modify (set_singleClickTimer (Some id))
      else if c =? 2 then
        modify (set_isDoubleClickProcessed true) >>
        modify (set_suppressClickUntil (currentTime + 100)) >>
        clearTimer singleClickTimer set_singleClickTimer >>
        clearTimer longPressTimer set_longPressTimer >>
        let! id := setTimeout SuppressBody 100 in
        modify (set_suppressTimer (Some id)) >>
        invoke (onDoubleClick opts) DoubleClick event >>
        resetState true
      else ret tt.

(** Lines 164-214. *)
Definition handleClick (event : Event) : M unit :=
  let! currentTime := dateNow in
  let! until := get suppressClickUntil in
  if currentTime <? until then ret tt
  else
    let! last := get lastClickTime in
    if debounced currentTime last then ret tt
    else
      modify (set_lastClickTime currentTime) >>
      clearTimer longPressTimer set_longPressTimer >>
      modify (λ r, set_clickCount (clickCount r + 1) r) >>
      let! c := get clickCount in
      if c =? 1 then
        let! id := setTimeout (SingleClickBody event) (delay opts) in
        modify (set_singleClickTimer (Some id))
      else if c =? 2 then
        clearAllTimers >>
        invoke (onDoubleClick opts) DoubleClick event >>
        resetState false
      else ret tt.

(** Lines 217-220. *)
Definition handleTouchCancel : M unit :=
  clearAllTimers >> resetState false.

(** Lines 223-225. *)
Definition onUnmounted : M unit := clearAllTimers.

(** The arrow functions handed to [setTimeout]. *)
Definition runBody (b : TimerBody) : M unit :=
  match b with
  | LongPressBody event =>
      modify (set_isLongPress true) >>
      clearAllTimers >>
      invoke (onLongPress opts) LongPress event
  | SingleClickBody event =>
      let! c := get clickCount in
      (if c =? 1 then invoke (onSingleClick opts) SingleClick event
       else ret tt) >>
      resetState false
  | SuppressBody => modify (set_suppressClickUntil 0)
  end.

(** ** The host *)

(** What the event loop can deliver to the session: the five raw events,
    the exposed [reset] (with its argument as a boolean), the unmount hook,
    and the firing of a pending timer. *)
Inductive Input :=
| TouchStart (event : Event)
| TouchMove
| TouchEnd (event : Event)
| TouchCancel
| Click (event : Event)
| Reset (preserveSuppression : bool)
| Unmount
| Fire (id : positive).

(** The host runs the callback of timer [id] if it is pending and due; the
    timer leaves the table before its callback runs. *)
Definition fire (id : positive) : M unit :=
  λ w, match pool w !! id with
       | Some tm =>
           if due tm <=? now w
           then runBody (body tm) (set_pool (delete id (pool w)) w)
           else Ok tt w
       | None => Ok tt w
       end.

Definition handler (i : Input) : M unit :=
  match i with
  | TouchStart event => handleTouchStart event
  | TouchMove => handleTouchMove
  | TouchEnd event => handleTouchEnd event
  | TouchCancel => handleTouchCancel
  | Click event => handleClick event
  | Reset p => resetState p
  | Unmount => onUnmounted
  | Fire id => fire id
  end.

(** One turn of the event loop at clock value [t]. *)
Definition deliver (t : Z) (i : Input) (w : World) : Result unit :=
  handler i (set_now t w).

(** A sequence of turns; an exception that escapes a handler is reported by
    the host and the loop goes on with the world as the handler left it. *)
Fixpoint run (inputs : list (Z * Input)) (w : World) : World :=
  match inputs with
  | [] => w
  | (t, i) :: rest => run rest (worldOf (deliver t i w))
  end.

(** The pending timer the host runs next: least due time, ties broken by
    creation order (the id). *)
Definition earlier (a b : positive * Timer) : bool :=
  (due a.2 <? due b.2) || ((due a.2 =? due b.2) && (a.1 <? b.1)%positive).

Definition earliest (p : gmap positive Timer) : option (positive * Timer) :=
  foldr (λ a acc, match acc with
                  | None => Some a
                  | Some b => if earlier a b then Some a else Some b
                  end) None (map_to_list p).

(** Let the clock run up to [t] with no further input: every timer that
    falls due is fired at its due time, in order.  No timer callback sets a
    timer, so the number of pending timers bounds the number of firings. *)
Fixpoint advanceN (n : nat) (t : Z) (w : World) : World :=
  match n with
  | O => set_now (Z.max (now w) t) w
  | S n' =>
      match earliest (pool w) with
      | Some (id, tm) =>
          if due tm <=? t
          then advanceN n' t
                 (worldOf (deliver (Z.max (now w) (due tm)) (Fire id) w))
          else set_now (Z.max (now w) t) w
      | None => set_now (Z.max (now w) t) w
      end
  end.

Definition advance (t : Z) (w : World) : World :=
  advanceN (size (pool w)) t w.

End Composable.


(** ** Vocabulary of the properties *)

(** The timer table once the timer a ref holds (if any) is cleared. *)
Definition dropTimer (o : option positive) (p : gmap positive Timer) :
    gmap positive Timer :=
  match o with
  | Some id => delete id p
  | None => p
  end.

Definition isSingleClickBody (b : TimerBody) : bool :=
  match b with SingleClickBody _ => true | _ => false end.

Definition isLongPressBody (b : TimerBody) : bool :=
  match b with LongPressBody _ => true | _ => false end.

Definition isSuppressBody (b : TimerBody) : bool :=
  match b with SuppressBody => true | _ => false end.

(** Number of outstanding timers of one kind. *)
Definition pending (k : TimerBody → bool) (p : gmap positive Timer) : nat :=
  length (filter (λ x : positive * Timer, k (body x.2) = true) (map_to_list p)).

(** The observations a turn appended to the trace. *)
Definition newObs (w w' : World) : list Obs :=
  drop (length (log w)) (log w').

(** The callbacks of a trace, in order of invocation. *)
Fixpoint callbacks (l : list Obs) : list Callback :=
  match l with
  | [] => []
  | Invoked _ cb _ _ :: l' => cb :: callbacks l'
  | SessionReset :: l' => callbacks l'
  end.

(** An episode ends when the session is reset: the trace cut at every
    [SessionReset], each piece reduced to its callbacks. *)
Fixpoint episodes (l : list Obs) : list (list Callback) :=
  match l with
  | [] => [[]]
  | SessionReset :: l' => [] :: episodes l'
  | Invoked _ cb _ _ :: l' =>
      match episodes l' with
      | e :: es => (cb :: e) :: es
      | [] => [[cb]]
      end
  end.

Definition atMostOnePerEpisode (l : list Obs) : Prop :=
  Forall (λ e : list Callback, (length e ≤ 1)%nat) (episodes l).

(** The part of a trace that precedes its first session reset. *)
Fixpoint untilReset (l : list Obs) : list Obs :=
  match l with
  | [] => []
  | SessionReset :: _ => []
  | o :: l' => o :: untilReset l'
  end.

Definition isClickCallback (cb : Callback) : bool :=
  match cb with LongPress _ => false | _ => true end.

Definition isClickObs (o : Obs) : bool :=
  match o with
  | Invoked _ cb _ _ => isClickCallback cb
  | SessionReset => false
  end.

(** Kinds of input. *)
Definition isTap (i : Input) : bool :=
  match i with TouchEnd _ | Click _ => true | _ => false end.

Definition isFire (i : Input) : bool :=
  match i with Fire _ => true | _ => false end.

(** Everything but a touch-start and a click: the inputs that
    [isLongPress] guards against. *)
Definition touchPath (i : Input) : bool :=
  match i with
  | TouchStart _ | Click _ => false
  | _ => true
  end.

(** A tap that passes the guards of its handler and reaches
    [clickCount.value++] (lines 95-114 for a touch-end, 169-178 for a
    click). *)
Definition counted (opts : Options) (t : Z) (i : Input) (w : World) : bool :=
  match i with
  | TouchEnd _ =>
      negb (debounced t (lastClickTime (refs w))) &&
      negb (isLongPress (refs w) ||
            (longPressDelay opts <=? t - touchStartTime (refs w)))
  | Click _ =>
      negb (t <? suppressClickUntil (refs w)) &&
      negb (debounced t (lastClickTime (refs w)))
  | _ => false
  end.

(** The callback, if there is one, returns on this event. *)
Definition returnsNormally (cb : option (Event → bool)) (ev : Event) : Prop :=
  ∀ f, cb = Some f → f ev = true.

(** The defaults with callbacks that all throw. *)
Definition throwingOptions : Options :=
  {| delay := 300;
     onSingleClick := Some (λ _, false);
     onDoubleClick := Some (λ _, false);
     onLongPress := Some (λ _, false);
     longPressDelay := 800 |}.

(** The defaults without a long-press callback. *)
Definition clickOnlyOptions : Options :=
  {| delay := 300;
     onSingleClick := Some (λ _, true);
     onDoubleClick := Some (λ _, true);
     onLongPress := None;
     longPressDelay := 800 |}.

(** ** The invariant of reachable worlds

    Timer ids in the table are below the next id; a pending single-click
    timer is the one the session holds, and the count is then 1; a pending
    suppression timer is the one the session holds, and the count is then at
    least 2; without a long-press callback there is no long-press timer. *)
Record Inv (opts : Options) (w : World) : Prop := {
  inv_fresh : ∀ id tm, pool w !! id = Some tm → (id < nextId w)%positive;
  inv_single : ∀ id tm, pool w !! id = Some tm →
    isSingleClickBody (body tm) = true →
    singleClickTimer (refs w) = Some id ∧ clickCount (refs w) = 1;
  inv_suppress : ∀ id tm, pool w !! id = Some tm →
    isSuppressBody (body tm) = true →
    suppressTimer (refs w) = Some id ∧ 2 ≤ clickCount (refs w);
  inv_long : onLongPress opts = None → ∀ id tm, pool w !! id = Some tm →
    isLongPressBody (body tm) = false;
  inv_long_ref : onLongPress opts = None → longPressTimer (refs w) = None
}.

(** The timer ids the session holds were handed out by the host. *)
Definition refsBelow (w : World) : Prop :=
  ∀ id, singleClickTimer (refs w) = Some id ∨
        longPressTimer (refs w) = Some id ∨
        suppressTimer (refs w) = Some id → (id < nextId w)%positive.

(** The timer a ref held, if any, is not in the table. *)
Definition cancelled (o : option positive) (p : gmap positive Timer) : Prop :=
  ∀ id, o = Some id → p !! id = None.

(** What the refs [r] and the timer table [p] look like when a callback is
    entered in a turn that started in world [w]: the counters, and which of
    the timers that the session held in [w] have been cancelled. *)
Definition atInvocation (w : World) (t : Z) (cb : Callback) (r : Refs)
    (p : gmap positive Timer) : Prop :=
  match cb with
  | SingleClick _ =>
      clickCount r = 1 ∧ pending isSingleClickBody p = 0%nat
  | DoubleClick _ =>
      clickCount r = 2 ∧ lastClickTime r = t ∧
      singleClickTimer r = None ∧ longPressTimer r = None ∧
      cancelled (singleClickTimer (refs w)) p ∧
      cancelled (longPressTimer (refs w)) p ∧
      pending isSingleClickBody p = 0%nat
  | LongPress _ =>
      isLongPress r = true ∧ singleClickTimer r = None ∧
      longPressTimer r = None ∧ suppressTimer r = None ∧
      cancelled (singleClickTimer (refs w)) p ∧
      cancelled (longPressTimer (refs w)) p ∧
      cancelled (suppressTimer (refs w)) p ∧
      pending isSingleClickBody p = 0%nat ∧
      pending isSuppressBody p = 0%nat
  end.

(** The observations of one turn of the event loop that starts in world
    [w] at time [t]: nothing; a reset; a callback that threw, the world left
    as the callback found it; a click callback that returned, followed by
    the reset; or the long-press callback that returned, with no reset. *)
Definition turnShape (w : World) (t : Z) (res : Result unit)
    (new : list Obs) : Prop :=
  new = [] ∨ new = [SessionReset] ∨
  ∃ cb r p, atInvocation w t cb r p ∧
    ((new = [Invoked t cb r p] ∧ returned res = false ∧
      refs (worldOf res) = r ∧ pool (worldOf res) = p) ∨
     (new = [Invoked t cb r p; SessionReset] ∧ returned res = true ∧
      isClickCallback cb = true) ∨
     (new = [Invoked t cb r p] ∧ returned res = true ∧
      isClickCallback cb = false ∧
      refs (worldOf res) = r ∧ pool (worldOf res) = p)).

(** The session counters are back at their initial values when a callback
    is entered. *)
Definition resetAtInvocation (o : Obs) : Prop :=
  match o with
  | Invoked _ _ r _ =>
      clickCount r = 0 ∧ isLongPress r = false ∧
      touchStartTime r = 0 ∧ lastClickTime r = 0
  | SessionReset => True
  end.

(** A long press has fired and no single-click timer is pending. *)
Definition longPressed (w : World) : Prop :=
  isLongPress (refs w) = true ∧
  ∀ id tm, pool w !! id = Some tm → isSingleClickBody (body tm) = false.

(** The session is idle with the suppression window open until [u]; only
    long-press timers are pending. *)
Definition suppressing (u : Z) (w : World) : Prop :=
  clickCount (refs w) = 0 ∧ lastClickTime (refs w) = 0 ∧
  suppressClickUntil (refs w) = u ∧
  ∀ id tm, pool w !! id = Some tm → isLongPressBody (body tm) = true.


(** ** The ideal host and the provenance of callbacks *)

(** The session has counted [c] taps, the last one at [t1], and no
    single-click timer is due by [t2]. *)
Definition awaiting (c t1 t2 : Z) (w : World) : Prop :=
  clickCount (refs w) = c ∧ lastClickTime (refs w) = t1 ∧
  ∀ id tm, pool w !! id = Some tm → isSingleClickBody (body tm) = true →
    t2 < due tm.

(** Four single-finger taps: the end of the second touch falls within the
    debounce window of the first. *)
Definition fourTaps : list (Z * Input) :=
  [(1000, TouchStart 1%nat); (1010, TouchEnd 2%nat);
   (1020, TouchStart 3%nat); (1040, TouchEnd 4%nat);
   (1045, TouchStart 5%nat); (1070, TouchEnd 6%nat);
   (1600, TouchStart 7%nat); (1650, TouchEnd 8%nat)].

(** The ideal host: before each input is delivered the clock runs up to its
    time and every timer that falls due fires. *)
Fixpoint play (opts : Options) (inputs : list (Z * Input)) (w : World) : World :=
  match inputs with
  | [] => w
  | (t, i) :: rest => play opts rest (worldOf (deliver opts t i (advance opts t w)))
  end.

(** Only long-press timers are pending. *)
Definition onlyLongPress (w : World) : Prop :=
  ∀ id tm, pool w !! id = Some tm → isLongPressBody (body tm) = true.

(** A touch end or click with event [ev] at time [t0] is among the
    inputs. *)
Definition tapped (past : list (Z * Input)) (t0 : Z) (ev : Event) : Prop :=
  (t0, TouchEnd ev) ∈ past ∨ (t0, Click ev) ∈ past.

(** What the inputs so far must contain for an observation to have a
    cause. *)
Definition justified (opts : Options) (past : list (Z * Input)) (o : Obs) :
    Prop :=
  match o with
  | Invoked t (SingleClick ev) _ _ =>
      ∃ t0, tapped past t0 ev ∧ t0 + timerDelay (delay opts) ≤ t
  | Invoked t (DoubleClick ev) _ _ => tapped past t ev
  | Invoked t (LongPress ev) _ _ =>
      ∃ t0, (t0, TouchStart ev) ∈ past ∧
            t0 + timerDelay (longPressDelay opts) ≤ t
  | SessionReset => True
  end.

(** A pending timer was armed by one of the inputs so far, and is due the
    delay of its kind after that input. *)
Definition timerJustified (opts : Options) (past : list (Z * Input))
    (tm : Timer) : Prop :=
  match body tm with
  | SingleClickBody ev =>
      ∃ t0, tapped past t0 ev ∧ due tm = t0 + timerDelay (delay opts)
  | LongPressBody ev =>
      ∃ t0, (t0, TouchStart ev) ∈ past ∧
            due tm = t0 + timerDelay (longPressDelay opts)
  | SuppressBody => True
  end.

(** Every observation and every pending timer of [w] has its cause in
    [past]. *)
Definition accounted (opts : Options) (past : list (Z * Input)) (w : World) :
    Prop :=
  Forall (justified opts past) (log w) ∧
  ∀ id tm, pool w !! id = Some tm → timerJustified opts past tm.

(** One step of the search for the timer to run next. *)
Definition pickEarlier (a : positive * Timer)
    (acc : option (positive * Timer)) : option (positive * Timer) :=
  match acc with
  | None => Some a
  | Some b => if earlier a b then Some a else Some b
  end.

(** * The logger of utils/log/logger.js

    Instances of [BaseLogger] live in a heap and are named by their
    address; a method takes the state and its receiver [this].  Field
    dictionaries are lists of entries in enumeration order.  The clock is
    a parameter of the methods that read it.  [stack] and [stringifyArg]
    depend on the engine (stack traces, [JSON.stringify]) and are left
    out. *)
Module Logger.

Local Open Scope nat_scope.

(** The digit a character stands for. *)
Definition digitOf (c : Ascii.ascii) : option N :=
  let n := Ascii.N_of_ascii c in
  if decide (48 ≤ n ∧ n ≤ 57)%N then Some (n - 48)%N else None.

Fixpoint parseDigits (acc : N) (s : string) : option N :=
  match s with
  | EmptyString => Some acc
  | String c s' =>
      match digitOf c with
      | Some d => parseDigits (10 * acc + d)%N s'
      | None => None
      end
  end.

(** A property key that is an array index: the canonical numeral of an
    integer from 0 to 2^32 - 2. *)
Definition arrayIndex (k : string) : option N :=
  match k with
  | EmptyString => None
  | _ =>
      match parseDigits 0 k with
      | Some n =>
          if decide (pretty n = k ∧ (n < 4294967295)%N) then Some n else None
      | None => None
      end
  end.

(** JavaScript enumerates the own properties of an object with the array
    indices first, in ascending numeric order, and the other keys after
    them, in the order of their creation.  [indexBefore k k']: a new key
    [k] is enumerated before the existing key [k']. *)
Definition indexBefore (k k' : string) : bool :=
  match arrayIndex k, arrayIndex k' with
  | Some n, Some n' => (n <? n')%N
  | Some _, None => true
  | None, _ => false
  end.

Section Values.

(** JavaScript values handed to the logger: field values and log
    arguments.  [toStr] is the conversion a template literal applies. *)
Context {V : Type} (toStr : V → string).

(** A plain object used as a dictionary: its own properties in enumeration
    order, one entry per key. *)
Definition Fields : Type := list (string * V).

(** [o[k]] *)
Fixpoint get (o : Fields) (k : string) : option V :=
  match o with
  | [] => None
  | (k', v) :: o' => if decide (k' = k) then Some v else get o' k
  end.

(** The value of an existing property is replaced where it stands. *)
Fixpoint replaceKey (o : Fields) (k : string) (v : V) : Fields :=
  match o with
  | [] => []
  | (k', v') :: o' =>
      if decide (k' = k) then (k', v) :: o' else (k', v') :: replaceKey o' k v
  end.

(** A new property takes its place in the enumeration order: an array
    index among the array indices, any other key at the end. *)
Fixpoint insertKey (o : Fields) (k : string) (v : V) : Fields :=
  match o with
  | [] => [(k, v)]
  | (k', v') :: o' =>
      if indexBefore k k' then (k, v) :: (k', v') :: o'
      else (k', v') :: insertKey o' k v
  end.

(** [o[k] = v] *)
Definition assign (o : Fields) (k : string) (v : V) : Fields :=
  match get o k with
  | Some _ => replaceKey o k v
  | None => insertKey o k v
  end.

(** The entries stand in the order in which JavaScript enumerates own
    properties. *)
Fixpoint enumerated (o : Fields) : Prop :=
  match o with
  | [] => True
  | a :: o' =>
      Forall (λ b : string * V, indexBefore b.1 a.1 = false) o' ∧
      enumerated o'
  end.

(** [{ ...a, ...b }] *)
Definition spread (a b : Fields) : Fields :=
  foldl (λ o kv, assign o kv.1 kv.2) a b.

(** [delete o[k]] *)
Definition deleteKey (o : Fields) (k : string) : Fields :=
  filter (λ kv : string * V, kv.1 ≠ k) (o : list (string * V)).

(** What [errorCallback] receives as its first argument (lines 192-196). *)
Record ErrorContext := {
  ctx_moduleName : string;
  ctx_requiredFields : Fields;
  ctx_timestamp : string
}.

(** An error callback is external code, here one that leaves the loggers
    alone: it returns ([true]) or throws. *)
Definition ErrorCallback : Type := ErrorContext → list V → bool.

(** An instance of [BaseLogger].  [globalRequiredFields] is [None] when the
    property was never set (a logger built with a parent); [errorCallback]
    is [None] when it is [null] or was never set. *)
Record BaseLogger := {
  moduleName : string;
  parentLogger : option nat;
  localRequiredFields : Fields;
  globalRequiredFields : option Fields;
  errorCallback : option ErrorCallback
}.

Inductive Level := LevelLog | LevelError | LevelWarn | LevelInfo | LevelDebug.

(** One argument of a console call. *)
Inductive Piece :=
| Text (s : string)
| Value (v : V)
| Caught.            (* the error caught at line 198 *)

(** The heap of logger instances, what was written to the console (oldest
    first) and the error callbacks that were invoked. *)
Record State := {
  heap : gmap nat BaseLogger;
  console : list (Level * list Piece);
  invoked : list (ErrorContext * list V)
}.

Definition set_heap (h : gmap nat BaseLogger) (s : State) : State :=
  {| heap := h; console := console s; invoked := invoked s |}.

Definition set_local (f : Fields) (o : BaseLogger) : BaseLogger :=
  {| moduleName := moduleName o; parentLogger := parentLogger o;
     localRequiredFields := f;
     globalRequiredFields := globalRequiredFields o;
     errorCallback := errorCallback o |}.

Definition set_global (f : option Fields) (o : BaseLogger) : BaseLogger :=
  {| moduleName := moduleName o; parentLogger := parentLogger o;
     localRequiredFields := localRequiredFields o;
     globalRequiredFields := f;
     errorCallback := errorCallback o |}.

Definition set_errorCallback (c : option ErrorCallback) (o : BaseLogger) :
    BaseLogger :=
  {| moduleName := moduleName o; parentLogger := parentLogger o;
     localRequiredFields := localRequiredFields o;
     globalRequiredFields := globalRequiredFields o;
     errorCallback := c |}.

(** Lines 7-17: the constructor, without the allocation. *)
Definition constructor (name : string) (parent : option nat) : BaseLogger :=
  {| moduleName := name; parentLogger := parent;
     localRequiredFields := [];
     globalRequiredFields :=
       match parent with None => Some [] | Some _ => None end;
     errorCallback := None |}.

(** [new BaseLogger(name, parent)]: the instance gets a fresh address. *)
Definition new (name : string) (parent : option nat) (s : State) :
    nat * State :=
  let l := fresh (dom (heap s)) in
  (l, set_heap (<[l := constructor name parent]> (heap s)) s).

(** Line 257: the module's exported instance, alone in the heap. *)
Definition baseLogger : nat := fresh (dom (∅ : gmap nat BaseLogger)).

Definition initState : State :=
  (new "" None {| heap := ∅; console := []; invoked := [] |}).2.

(** Lines 32-34.  [this] is an allocated instance. *)
Definition getRootLogger (s : State) (this : nat) : nat :=
  match heap s !! this with
  | Some o => default this (parentLogger o)
  | None => this
  end.

(** Lines 24-26. *)
Definition create (name : string) (s : State) (this : nat) : nat * State :=
  new name (Some (getRootLogger s this)) s.

(** The global fields of the root as the spreads and [||] of lines 42 and
    116 read them: nothing when the property is undefined. *)
Definition rootGlobalFields (s : State) (root : nat) : Fields :=
  match heap s !! root with
  | Some o => default [] (globalRequiredFields o)
  | None => []
  end.

(** Lines 40-43. *)
Definition setGlobalRequiredFields (fields : Fields) (s : State) (this : nat) :
    State :=
  let root := getRootLogger s this in
  set_heap (alter (set_global
                     (Some (spread (spread [] (rootGlobalFields s root))
                              fields)))
              root (heap s)) s.

(** Lines 49-51. *)
Definition setRequiredFields (fields : Fields) (s : State) (this : nat) :
    State :=
  set_heap (alter (λ o, set_local
                          (spread (spread [] (localRequiredFields o)) fields)
                          o)
              this (heap s)) s.

(** Lines 57-63.  [fieldNames] is the array after line 59.  Deleting a
    property of [undefined] is a TypeError: [None]. *)
Definition removeGlobalRequiredFields (fieldNames : list string) (s : State)
    (this : nat) : option State :=
  let root := getRootLogger s this in
  match fieldNames with
  | [] => Some s
  | _ =>
      match heap s !! root with
      | Some o =>
          match globalRequiredFields o with
          | Some g =>
              Some (set_heap
                      (<[root := set_global
                                   (Some (foldl deleteKey g fieldNames)) o]>
                         (heap s)) s)
          | None => None
          end
      | None => None
      end
  end.

(** Lines 69-74. *)
Definition removeRequiredFields (fieldNames : list string) (s : State)
    (this : nat) : State :=
  set_heap (alter (λ o, set_local
                          (foldl deleteKey (localRequiredFields o) fieldNames)
                          o)
              this (heap s)) s.

(** Lines 79-81. *)
Definition clearRequiredFields (s : State) (this : nat) : State :=
  set_heap (alter (set_local []) this (heap s)) s.

(** Lines 86-89. *)
Definition clearGlobalRequiredFields (s : State) (this : nat) : State :=
  set_heap (alter (set_global (Some [])) (getRootLogger s this) (heap s)) s.

(** Lines 95-100: [None] is an argument that is not a function. *)
Definition registerErrorCallback (callback : option ErrorCallback)
    (s : State) (this : nat) : State :=
  match callback with
  | Some f =>
      set_heap (alter (set_errorCallback (Some f)) (getRootLogger s this)
                  (heap s)) s
  | None => s
  end.

(** Lines 105-108. *)
Definition unregisterErrorCallback (s : State) (this : nat) : State :=
  set_heap (alter (set_errorCallback None) (getRootLogger s this) (heap s)) s.

(** [this.localRequiredFields] *)
Definition localFields (s : State) (this : nat) : Fields :=
  match heap s !! this with
  | Some o => localRequiredFields o
  | None => []
  end.

(** Lines 114-118. *)
Definition getAllRequiredFields (s : State) (this : nat) : Fields :=
  let root := getRootLogger s this in
  spread (spread [] (rootGlobalFields s root)) (localFields s this).

(** [String.prototype.padStart(n, '0')]. *)
Fixpoint zeros (n : nat) : string :=
  match n with
  | O => ""
  | S n' => "0" +:+ zeros n'
  end.

Definition padStart0 (n : nat) (s : string) : string :=
  zeros (n - String.length s) +:+ s.

(** Lines 144-151, for the local time the clock gives; [String(n)] of a
    natural number is its decimal numeral. *)
Definition getTimeStamp (hours minutes seconds milliseconds : nat) : string :=
  "[" +:+ padStart0 2 (pretty hours) +:+ ":" +:+
  padStart0 2 (pretty minutes) +:+ ":" +:+
  padStart0 2 (pretty seconds) +:+ "." +:+
  padStart0 3 (pretty milliseconds) +:+ "]".

(** [Array.prototype.join]. *)
Fixpoint join (sep : string) (l : list string) : string :=
  match l with
  | [] => ""
  | [x] => x
  | x :: l' => x +:+ sep +:+ join sep l'
  end.

(** Lines 124-130. *)
Definition getRequiredFieldsString (s : State) (this : nat) : string :=
  let fields :=
    join " " (map (λ kv : string * V, kv.1 +:+ ":" +:+ toStr kv.2)
                (getAllRequiredFields s this)) in
  if decide (fields = "") then "" else "[" +:+ fields +:+ "]".

(** [this.moduleName] *)
Definition moduleNameOf (s : State) (this : nat) : string :=
  match heap s !! this with
  | Some o => moduleName o
  | None => ""
  end.

(** Lines 136-138. *)
Definition getModuleNameString (s : State) (this : nat) : string :=
  if decide (moduleNameOf s this = "") then ""
  else "[" +:+ moduleNameOf s this +:+ "]".

(** Lines 157-171, the time stamp of line 158 given. *)
Definition getLogPrefix (stamp : string) (s : State) (this : nat) :
    list string :=
  let moduleName := getModuleNameString s this in
  let requiredFields := getRequiredFieldsString s this in
  [stamp] ++ (if decide (moduleName = "") then [] else [moduleName])
          ++ (if decide (requiredFields = "") then [] else [requiredFields]).

Definition write (lv : Level) (ps : list Piece) (s : State) : State :=
  {| heap := heap s; console := console s ++ [(lv, ps)];
     invoked := invoked s |}.

(** Lines 177-179, 208-210, 216-218, 224-226. *)
Definition logAt (lv : Level) (stamp : string) (args : list V) (s : State)
    (this : nat) : State :=
  write lv (map Text (getLogPrefix stamp s this) ++ map Value args) s.

(** Lines 185-202; [stamp] and [stamp'] are the time stamps of lines 186
    and 195. *)
Definition error (stamp stamp' : string) (args : list V) (s : State)
    (this : nat) : State :=
  let s1 := write LevelError
              (map Text (getLogPrefix stamp s this) ++ map Value args) s in
  match heap s !! getRootLogger s this with
  | Some root =>
      match errorCallback root with
      | Some f =>
          let context :=
            {| ctx_moduleName := moduleNameOf s this;
               ctx_requiredFields := getAllRequiredFields s this;
               ctx_timestamp := stamp' |} in
          let s2 := {| heap := heap s1; console := console s1;
                       invoked := invoked s1 ++ [(context, args)] |} in
          if f context args then s2
          else write LevelError
                 [Text "Error callback execution failed:"; Caught] s2
      | None => s1
      end
  | None => s1
  end.

(** What a program does with loggers. *)
Inductive Op :=
| OpCreate (name : string) (this : nat)
| OpSetGlobalRequiredFields (fields : Fields) (this : nat)
| OpSetRequiredFields (fields : Fields) (this : nat)
| OpRemoveGlobalRequiredFields (fieldNames : list string) (this : nat)
| OpRemoveRequiredFields (fieldNames : list string) (this : nat)
| OpClearRequiredFields (this : nat)
| OpClearGlobalRequiredFields (this : nat)
| OpRegisterErrorCallback (callback : option ErrorCallback) (this : nat)
| OpUnregisterErrorCallback (this : nat)
| OpLog (lv : Level) (stamp : string) (args : list V) (this : nat)
| OpError (stamp stamp' : string) (args : list V) (this : nat).

Definition receiver (op : Op) : nat :=
  match op with
  | OpCreate _ this | OpSetGlobalRequiredFields _ this
  | OpSetRequiredFields _ this | OpRemoveGlobalRequiredFields _ this
  | OpRemoveRequiredFields _ this | OpClearRequiredFields this
  | OpClearGlobalRequiredFields this | OpRegisterErrorCallback _ this
  | OpUnregisterErrorCallback this | OpLog _ _ _ this
  | OpError _ _ _ this => this
  end.

(** A method call on an instance that exists; a call that throws leaves
    the state as it was. *)
Definition step (op : Op) (s : State) : State :=
  if decide (is_Some (heap s !! receiver op)) then
    match op with
    | OpCreate name this => (create name s this).2
    | OpSetGlobalRequiredFields fields this =>
        setGlobalRequiredFields fields s this
    | OpSetRequiredFields fields this => setRequiredFields fields s this
    | OpRemoveGlobalRequiredFields names this =>
        default s (removeGlobalRequiredFields names s this)
    | OpRemoveRequiredFields names this => removeRequiredFields names s this
    | OpClearRequiredFields this => clearRequiredFields s this
    | OpClearGlobalRequiredFields this => clearGlobalRequiredFields s this
    | OpRegisterErrorCallback cb this => registerErrorCallback cb s this
    | OpUnregisterErrorCallback this => unregisterErrorCallback s this
    | OpLog lv stamp args this => logAt lv stamp args s this
    | OpError stamp stamp' args this => error stamp stamp' args s this
    end
  else s.

Definition steps (ops : list Op) (s : State) : State :=
  foldl (λ s op, step op s) s ops.

(** Every parent is a parentless instance that owns the global fields,
    and the stored dictionaries have one entry per key. *)
Record wf (s : State) : Prop := {
  wf_parent : ∀ l o p, heap s !! l = Some o → parentLogger o = Some p →
    ∃ r, heap s !! p = Some r ∧ parentLogger r = None;
  wf_global : ∀ l o, heap s !! l = Some o → parentLogger o = None →
    is_Some (globalRequiredFields o);
  wf_local_keys : ∀ l o, heap s !! l = Some o →
    NoDup (localRequiredFields o).*1;
  wf_global_keys : ∀ l o g, heap s !! l = Some o →
    globalRequiredFields o = Some g → NoDup g.*1
}.

(** Two instances share their root. *)
Definition sameRoot (s : State) (a b : nat) : Prop :=
  getRootLogger s a = getRootLogger s b.

End Values.

End Logger.

(** ** Proof tactics *)

(** Name every ref and every field of a world. *)
Ltac break_world w :=
  destruct w as [[cc0 lp0 ts0 sct0 lpt0 lct0 dcp0 scu0 st0] pl0 nid0 clk0 lg0].

(** Run the monadic code as far as it goes without a case split. *)
Ltac mstep :=
  cbv beta iota zeta delta
    [bind ret get modify dateNow setTimeout clearTimeout observe invoke
     clearTimer clearAllTimers resetState handleTouchStart handleTouchMove
     handleTouchEnd handleClick handleTouchCancel onUnmounted runBody fire
     handler deliver worldOf returned set_refs set_pool set_now set_log
     refs pool nextId now log
     clickCount isLongPress touchStartTime singleClickTimer longPressTimer
     lastClickTime isDoubleClickProcessed suppressClickUntil suppressTimer
     set_clickCount set_isLongPress set_touchStartTime set_singleClickTimer
     set_longPressTimer set_lastClickTime set_isDoubleClickProcessed
     set_suppressClickUntil set_suppressTimer
     dropTimer orb negb andb] in *;
  cbn [due body isSingleClickBody isLongPressBody isSuppressBody] in *.

(** Follow every branch of a handler: split on the tests and on the refs
    that hold a timer id or [null]. *)
Ltac cases :=
  repeat (mstep;
    match goal with
    | |- context [match ?o with Some _ => _ | None => _ end] =>
        lazymatch type of o with option _ => destruct o eqn:? end
    | |- context [if ?b then _ else _] =>
        lazymatch type of b with bool => destruct b eqn:? end
    end); mstep.

(** Resolve a lookup in a timer table built from inserts and deletes. *)
Ltac lookup_cases H :=
  repeat (first
    [ rewrite lookup_insert in H | rewrite lookup_delete in H ];
    try case_decide; simplify_eq; mstep).

(** Boolean comparisons on [Z] as propositions. *)
Ltac zbool :=
  repeat match goal with
  | H : (_ =? _) = true |- _ => apply Z.eqb_eq in H
  | H : (_ =? _) = false |- _ => apply Z.eqb_neq in H
  | H : (_ <? _) = true |- _ => apply Z.ltb_lt in H
  | H : (_ <? _) = false |- _ => apply Z.ltb_ge in H
  | H : (_ <=? _) = true |- _ => apply Z.leb_le in H
  | H : (_ <=? _) = false |- _ => apply Z.leb_gt in H
  end.

(** Compute the observations a turn appended. *)
Ltac obs_simpl :=
  unfold newObs; mstep; rewrite <- ?app_assoc;
  rewrite ?drop_app_length, ?drop_all.

(** One field of [Inv] after a turn, from the fields before it. *)
Ltac inv_field Hf Hs Hp Hl Hr :=
  mstep; intros;
  try (specialize (Hr ltac:(first [assumption | reflexivity])));
  repeat match goal with
  | H : _ !! _ = Some _ |- _ => progress (lookup_cases H)
  end;
  try match goal with
  | H : ?p !! _ = Some _ |- _ =>
      pose proof (Hf _ _ H);
      try (pose proof (Hs _ _ H ltac:(assumption)));
      try (pose proof (Hp _ _ H ltac:(assumption)));
      try (pose proof (Hl ltac:(first [assumption | reflexivity]) _ _ H))
  end;
  destruct_and?; simplify_eq; zbool; try done; try congruence;
  try (split; congruence || lia); try lia.

Ltac inv_solve Hf Hs Hp Hl Hr :=
  split; [inv_field Hf Hs Hp Hl Hr ..].

(** ** Basic facts about the primitives *)

Lemma timerDelay_in_range ms :
  ms ≤ maxTimerDelay → timerDelay ms = Z.max 0 ms.
Proof. intros H. unfold timerDelay. apply Z.leb_le in H. by rewrite H. Qed.

Lemma timerDelay_bounds ms : 0 ≤ timerDelay ms ≤ Z.max 0 ms.
Proof. unfold timerDelay. destruct (ms <=? maxTimerDelay); lia. Qed.

Lemma clearTimer_long_eq (w : World) :
  clearTimer longPressTimer set_longPressTimer w =
  Ok tt (set_pool (dropTimer (longPressTimer (refs w)) (pool w))
           (set_refs (set_longPressTimer None (refs w)) w)).
Proof.
  destruct w as [[cc lp ts sct lpt lct dcp scu st] p n t l].
  destruct lpt; reflexivity.
Qed.

Lemma resetState_refs p w :
  returned (resetState p w) = true ∧
  refs (worldOf (resetState p w)) =
    set_suppressClickUntil
      (if p then suppressClickUntil (refs w) else 0) initRefs ∧
  pool (worldOf (resetState p w)) =
    dropTimer (suppressTimer (refs w))
      (dropTimer (longPressTimer (refs w))
         (dropTimer (singleClickTimer (refs w)) (pool w))) ∧
  log (worldOf (resetState p w)) = log w ++ [SessionReset] ∧
  nextId (worldOf (resetState p w)) = nextId w.
Proof. break_world w. destruct p; cases; done. Qed.

Lemma deliver_log opts t i w :
  log (worldOf (deliver opts t i w)) =
  log w ++ newObs w (worldOf (deliver opts t i w)).
Proof.
  break_world w. destruct i; try (cases; obs_simpl;
    rewrite ?app_nil_r; reflexivity).
  mstep. destruct (pl0 !! id) as [[d [e|e|]]|] eqn:Hlk; cases; obs_simpl;
    rewrite ?app_nil_r; reflexivity.
Qed.

Lemma run_log opts inputs w :
  ∃ new, log (run opts inputs w) = log w ++ new.
Proof.
  revert w. induction inputs as [|[t i] rest IH]; intros w.
  - exists []. by rewrite app_nil_r.
  - cbn [run]. destruct (IH (worldOf (deliver opts t i w))) as [new ->].
    rewrite deliver_log, <- app_assoc. eauto.
Qed.

(** ** The invariant holds in every reachable world *)

Lemma Inv_init opts : Inv opts initWorld.
Proof. split; cbn; intros; by simplify_map_eq. Qed.

Lemma Inv_deliver opts t i w :
  Inv opts w → Inv opts (worldOf (deliver opts t i w)).
Proof.
  intros [Hf Hs Hp Hl Hr]. break_world w. mstep.
  destruct i.
  - cases; inv_solve Hf Hs Hp Hl Hr.
  - cases; inv_solve Hf Hs Hp Hl Hr.
  - cases; inv_solve Hf Hs Hp Hl Hr.
  - cases; inv_solve Hf Hs Hp Hl Hr.
  - cases; inv_solve Hf Hs Hp Hl Hr.
  - cases; inv_solve Hf Hs Hp Hl Hr.
  - cases; inv_solve Hf Hs Hp Hl Hr.
  - destruct (pl0 !! id) as [[d [e|e|]]|] eqn:Hlk; cases;
      inv_solve Hf Hs Hp Hl Hr.
Qed.

Lemma Inv_run opts inputs w : Inv opts w → Inv opts (run opts inputs w).
Proof.
  revert w. induction inputs as [|[t i] rest IH]; intros w Hw; [done|].
  cbn [run]. apply IH, Inv_deliver, Hw.
Qed.

Lemma idle_pool_empty opts w :
  Inv opts w → onLongPress opts = None →
  singleClickTimer (refs w) = None → suppressTimer (refs w) = None →
  pool w = ∅.
Proof.
  intros [Hf Hs Hp Hl Hr] Hn Hsc Hsu. apply map_empty. intros i.
  destruct (pool w !! i) as [[d b]|] eqn:E; [exfalso|done].
  destruct b.
  - specialize (Hl Hn _ _ E). discriminate.
  - destruct (Hs _ _ E eq_refl). congruence.
  - destruct (Hp _ _ E eq_refl). congruence.
Qed.

(** ** Counting pending timers *)

Lemma filter_none {A} (P : A → Prop) `{!∀ x, Decision (P x)} (l : list A) :
  (∀ x, x ∈ l → ¬ P x) → filter P l = [].
Proof.
  induction l as [|x l IH]; intros Hno; [done|].
  rewrite filter_cons. case_decide as HP.
  - exfalso. apply (Hno x); [left|done].
  - apply IH. intros y Hy. apply Hno. by right.
Qed.

Lemma filter_unique_key {A K} (P : A → Prop) `{!∀ x, Decision (P x)}
    (f : A → K) (l : list A) :
  NoDup (f <$> l) →
  (∀ x y, x ∈ l → y ∈ l → P x → P y → f x = f y) →
  (length (filter P l) ≤ 1)%nat.
Proof.
  induction l as [|x l IH]; intros Hnd Hu; [cbn; lia|].
  rewrite fmap_cons in Hnd. apply NoDup_cons in Hnd as [Hx Hnd].
  rewrite filter_cons. case_decide as HP.
  - rewrite filter_none; [cbn; lia|].
    intros y Hy HPy. apply Hx. rewrite (Hu x y); [|by left|by right|done..].
    apply list_elem_of_fmap. eauto.
  - apply IH; [done|]. intros y z Hy Hz. apply Hu; by right.
Qed.

Lemma pending_le_1 (k : TimerBody → bool) (p : gmap positive Timer) :
  (∀ i j ti tj, p !! i = Some ti → p !! j = Some tj →
     k (body ti) = true → k (body tj) = true → i = j) →
  (pending k p ≤ 1)%nat.
Proof.
  intros Hu. unfold pending. apply (filter_unique_key _ fst).
  - apply NoDup_fst_map_to_list.
  - intros [i ti] [j tj] Hi Hj. cbn.
    rewrite !elem_of_map_to_list in Hi, Hj. eauto.
Qed.

Lemma pending_0 (k : TimerBody → bool) (p : gmap positive Timer) :
  (∀ i ti, p !! i = Some ti → k (body ti) = false) → pending k p = 0%nat.
Proof.
  intros Hno. unfold pending. rewrite filter_none; [done|].
  intros [i ti] Hi. rewrite elem_of_map_to_list in Hi. cbn.
  rewrite (Hno _ _ Hi). done.
Qed.

Lemma pending_insert (k : TimerBody → bool) (p : gmap positive Timer) i tm :
  p !! i = None →
  pending k (<[i := tm]> p) =
  ((if k (body tm) then 1 else 0) + pending k p)%nat.
Proof.
  intros Hi. unfold pending. rewrite (map_to_list_insert _ _ _ Hi).
  rewrite filter_cons. cbn. destruct (k (body tm)); case_decide; done.
Qed.

(** ** What the handlers do on their main paths *)

Lemma touchEnd_double_click opts w T2 ev2 :
  clickCount (refs w) = 1 →
  debounced T2 (lastClickTime (refs w)) = false →
  isLongPress (refs w) = false →
  T2 - touchStartTime (refs w) < longPressDelay opts →
  returnsNormally (onDoubleClick opts) ev2 →
  let w2 := worldOf (deliver opts T2 (TouchEnd ev2) w) in
  returned (deliver opts T2 (TouchEnd ev2) w) = true ∧
  refs w2 = set_suppressClickUntil (T2 + 100) initRefs ∧
  pool w2 = delete (nextId w)
              (dropTimer (singleClickTimer (refs w))
                 (dropTimer (longPressTimer (refs w)) (pool w))) ∧
  ∃ inv, log w2 = log w ++ inv ++ [SessionReset] ∧
    ∀ o, o ∈ inv → ∃ r p, o = Invoked T2 (DoubleClick ev2) r p.
Proof.
  intros Hcc Hdb Hlp Hdur Hret. break_world w. mstep. subst cc0 lp0.
  rewrite Hdb. apply Z.leb_gt in Hdur. rewrite Hdur. mstep.
  assert (∀ f, onDoubleClick opts = Some f → f ev2 = true) as Hret' by done.
  clear Hret.
  cases; try (rewrite (Hret' _ eq_refl) in *; discriminate).
  all: try (exfalso; zbool; lia).
  all: split; [done|]; split; [done|]; split;
    [ rewrite ?delete_insert_eq; reflexivity |].
  all: rewrite <- ?app_assoc.
  all: try (eexists [_]; split; [reflexivity|];
            intros o Ho; apply list_elem_of_singleton in Ho; eauto).
  all: try (exists []; split; [reflexivity|]; intros o Ho; inversion Ho).
Qed.

Lemma click_on_idle_session opts w u t ev :
  refs w = set_suppressClickUntil u initRefs →
  (t < u → deliver opts t (Click ev) w = Ok tt (set_now t w)) ∧
  (u ≤ t → 50 ≤ t →
   let w3 := worldOf (deliver opts t (Click ev) w) in
   returned (deliver opts t (Click ev) w) = true ∧
   clickCount (refs w3) = 1 ∧
   lastClickTime (refs w3) = t ∧
   singleClickTimer (refs w3) = Some (nextId w) ∧
   pool w3 =
     <[nextId w := {| due := t + timerDelay (delay opts);
                      body := SingleClickBody ev |}]> (pool w) ∧
   log w3 = log w).
Proof.
  intros Hr. break_world w. cbn in Hr. injection Hr as -> -> -> -> -> -> -> -> ->.
  mstep. split.
  - intros Hlt. apply Z.ltb_lt in Hlt. rewrite Hlt. reflexivity.
  - intros Hge H50. apply Z.ltb_ge in Hge. rewrite Hge. unfold debounced.
    assert ((t - 0 <? 50) = false) as -> by (apply Z.ltb_ge; lia).
    mstep. done.
Qed.

Lemma touchEnd_after_long_press opts w t ev :
  isLongPress (refs w) = true →
  debounced t (lastClickTime (refs w)) = false →
  let w' := worldOf (deliver opts t (TouchEnd ev) w) in
  refs w' = initRefs ∧ log w' = log w ++ [SessionReset].
Proof.
  intros Hlp Hdb. break_world w. mstep. subst lp0. rewrite Hdb.
  cases; done.
Qed.

Lemma tap_discarded opts w t i :
  isTap i = true → debounced t (lastClickTime (refs w)) = true →
  deliver opts t i w = Ok tt (set_now t w).
Proof.
  intros Hi Hd. break_world w. destruct i; try discriminate; mstep.
  - by rewrite Hd.
  - destruct (t <? scu0); [done|]. by rewrite Hd.
Qed.

Lemma advance_singleton opts T w id tm :
  pool w = {[id := tm]} →
  (T < due tm → advance opts T w = set_now (Z.max (now w) T) w) ∧
  (due tm ≤ T →
   advance opts T w =
   let w' := worldOf (deliver opts (Z.max (now w) (due tm)) (Fire id) w) in
   set_now (Z.max (now w') T) w').
Proof.
  intros Hp. unfold advance. rewrite Hp, map_size_singleton.
  cbn [advanceN]. rewrite Hp. unfold earliest.
  rewrite map_to_list_singleton. cbn [foldr]. split; intros HT.
  - apply Z.leb_gt in HT. by rewrite HT.
  - apply Z.leb_le in HT. by rewrite HT.
Qed.

(** ** The ideal host *)

Lemma earliest_lookup (p : gmap positive Timer) id tm :
  earliest p = Some (id, tm) → p !! id = Some tm.
Proof.
  unfold earliest. intros H. apply elem_of_map_to_list.
  induction (map_to_list p) as [|a l IH]; [discriminate|].
  cbn [foldr] in H.
  destruct (foldr _ None l) as [b|] eqn:E.
  - destruct (earlier a b); simplify_eq; [left|right; by apply IH].
  - simplify_eq. left.
Qed.

Lemma advance_not_due opts T w :
  (∀ id tm, pool w !! id = Some tm → T < due tm) →
  advance opts T w = set_now (Z.max (now w) T) w.
Proof.
  intros H. unfold advance. destruct (size (pool w)); [done|].
  cbn [advanceN]. destruct (earliest (pool w)) as [[id tm]|] eqn:E; [|done].
  apply earliest_lookup, H in E. apply Z.leb_gt in E. by rewrite E.
Qed.

Ltac pool_cases H :=
  repeat (first
    [ rewrite lookup_insert in H | rewrite lookup_delete in H
    | rewrite lookup_empty in H ];
    try case_decide; simplify_eq; mstep).

Lemma play_cons opts t i rest w :
  play opts ((t, i) :: rest) w =
  play opts rest (worldOf (deliver opts t i (advance opts t w))).
Proof. reflexivity. Qed.

Lemma play_nil opts w : play opts [] w = w.
Proof. reflexivity. Qed.

(** A delay that fits is the delay the host uses. *)
Ltac in_range :=
  repeat match goal with
  | H : ?x ≤ maxTimerDelay |- context [timerDelay ?x] =>
      rewrite (timerDelay_in_range x H)
  | H : ?x ≤ maxTimerDelay, H' : context [timerDelay ?x] |- _ =>
      rewrite (timerDelay_in_range x H) in H'
  end.

(** Evaluate the counter arithmetic of the first two taps. *)
Ltac mrun :=
  mstep; in_range;
  repeat (progress
    (change (0 + 1) with 1 in *; change (1 + 1) with 2 in *;
     change (1 =? 1) with true in *; change (2 =? 1) with false in *;
     change (2 =? 2) with true in *); mstep).

(** One input of [play] when no pending timer is due at its time. *)
Ltac play_step :=
  rewrite play_cons;
  rewrite advance_not_due;
  [| mrun; intros ? ? Hlk; pool_cases Hlk; mrun; lia ];
  mrun.

(** ** The suppression window (C1, C5) *)

(** C1.  The touch-path double click sets [suppressClickUntil] and arms the
    suppression-expiry timer, but the [resetState(true)] that follows calls
    [clearAllTimers], which cancels that very timer.  After two taps at 1050
    and 1150 the field is 1250, the session holds no suppression timer, the
    host has no pending timer at all, and however long the clock runs the
    field stays 1250: the expiry timer never fires. *)
Theorem suppression_expiry_timer_cancelled :
  let w := run defaultOptions
             [(1000, TouchStart 1%nat); (1050, TouchEnd 2%nat);
              (1100, TouchStart 3%nat); (1150, TouchEnd 4%nat)] initWorld in
  log w ≠ [] ∧
  suppressClickUntil (refs w) = 1250 ∧
  suppressTimer (refs w) = None ∧
  pool w = ∅ ∧
  ∀ T, suppressClickUntil (refs (advance defaultOptions T w)) = 1250.
Proof. vm_compute. repeat split. discriminate. Qed.

(** The same for every touch-end that confirms a double click: the timer it
    arms (id [nextId w]) is no longer pending when the handler returns. *)
Lemma suppression_timer_never_pending opts w T2 ev2 :
  clickCount (refs w) = 1 →
  debounced T2 (lastClickTime (refs w)) = false →
  isLongPress (refs w) = false →
  T2 - touchStartTime (refs w) < longPressDelay opts →
  returnsNormally (onDoubleClick opts) ev2 →
  let w2 := worldOf (deliver opts T2 (TouchEnd ev2) w) in
  suppressClickUntil (refs w2) = T2 + 100 ∧
  suppressTimer (refs w2) = None ∧
  pool w2 !! nextId w = None.
Proof.
  intros Hcc Hdb Hlp Hdur Hret w2.
  destruct (touchEnd_double_click opts w T2 ev2 Hcc Hdb Hlp Hdur Hret)
    as (_ & Hr & Hp & _). fold w2 in Hr, Hp.
  rewrite Hr, Hp. repeat split. apply lookup_delete_eq.
Qed.

Lemma suppressing_fire opts u t id w :
  suppressing u w → suppressing u (worldOf (deliver opts t (Fire id) w)).
Proof.
  intros (Hc & Hl & Hu & Hp). break_world w. unfold suppressing. mstep.
  subst cc0 lct0 scu0.
  destruct (pl0 !! id) as [[d [e|e|]]|] eqn:Hlk;
    try (apply Hp in Hlk; discriminate).
  - cases; repeat (split; [done|]); try done.
    all: intros i tm H; lookup_cases H; eauto.
  - done.
Qed.

Lemma suppressing_fires opts u fires w :
  Forall (λ x : Z * Input, isFire x.2 = true) fires →
  suppressing u w → suppressing u (run opts fires w).
Proof.
  revert w. induction fires as [|[t i] rest IH]; intros w Hf Hw; [done|].
  apply Forall_cons in Hf as [Hi Hf]. cbn [run]. apply IH; [done|].
  destruct i; try discriminate. by apply suppressing_fire.
Qed.

Lemma click_while_suppressing opts w u t ev :
  suppressing u w →
  (t < u → deliver opts t (Click ev) w = Ok tt (set_now t w)) ∧
  (u ≤ t → 50 ≤ t →
   let w3 := worldOf (deliver opts t (Click ev) w) in
   returned (deliver opts t (Click ev) w) = true ∧
   clickCount (refs w3) = 1 ∧
   lastClickTime (refs w3) = t ∧
   singleClickTimer (refs w3) = Some (nextId w) ∧
   pool w3 !! nextId w =
     Some {| due := t + timerDelay (delay opts); body := SingleClickBody ev |} ∧
   log w3 = log w).
Proof.
  intros (Hc & Hl & Hu & _). break_world w. mstep. subst cc0 lct0 scu0.
  split.
  - intros Hlt. apply Z.ltb_lt in Hlt. rewrite Hlt. reflexivity.
  - intros Hge H50. apply Z.ltb_ge in Hge. rewrite Hge.
    assert (debounced t 0 = false) as -> by (apply Z.ltb_ge; lia).
    cases; zbool; try lia; rewrite lookup_insert_eq; done.
Qed.

(** C5.  In any reachable world, let a touch-end at [T2] confirm a double
    click (count 1, not debounced, no long press, [onDoubleClick] returns),
    and let any timers fire afterwards.  A click delivered before
    [T2 + 100] is discarded: the world is unchanged, so no callback fires
    and [clickCount] is not incremented.  A click delivered at [T2 + 100]
    or later is accepted: [clickCount] becomes 1 and a single-click timer
    is armed for [delay] ms, with no callback yet. *)
Theorem click_after_touch_double_click opts pre T2 ev2 fires t ev :
  let w := run opts pre initWorld in
  0 ≤ T2 →
  clickCount (refs w) = 1 →
  debounced T2 (lastClickTime (refs w)) = false →
  isLongPress (refs w) = false →
  T2 - touchStartTime (refs w) < longPressDelay opts →
  returnsNormally (onDoubleClick opts) ev2 →
  Forall (λ x : Z * Input, isFire x.2 = true) fires →
  let w2 := run opts fires (worldOf (deliver opts T2 (TouchEnd ev2) w)) in
  clickCount (refs w2) = 0 ∧
  suppressClickUntil (refs w2) = T2 + 100 ∧
  (t < T2 + 100 → deliver opts t (Click ev) w2 = Ok tt (set_now t w2)) ∧
  (T2 + 100 ≤ t →
   let w3 := worldOf (deliver opts t (Click ev) w2) in
   clickCount (refs w3) = 1 ∧
   lastClickTime (refs w3) = t ∧
   singleClickTimer (refs w3) = Some (nextId w2) ∧
   pool w3 !! nextId w2 =
     Some {| due := t + timerDelay (delay opts); body := SingleClickBody ev |} ∧
   log w3 = log w2).
Proof.
  intros w HT2 Hcc Hdb Hlp Hdur Hret Hfires w2.
  assert (Inv opts (worldOf (deliver opts T2 (TouchEnd ev2) w)))
    as [_ Hs Hp _ _] by apply Inv_deliver, Inv_run, Inv_init.
  destruct (touchEnd_double_click opts w T2 ev2 Hcc Hdb Hlp Hdur Hret)
    as (_ & Hr & _).
  assert (suppressing (T2 + 100) w2) as Hw2.
  { apply suppressing_fires; [done|]. unfold suppressing.
    rewrite Hr. repeat (split; [done|]). intros id [d b] Hid.
    rewrite Hr in Hs, Hp. destruct b; [done|exfalso..].
    - destruct (Hs _ _ Hid eq_refl). discriminate.
    - destruct (Hp _ _ Hid eq_refl). discriminate. }
  clearbody w2.
  destruct (click_while_suppressing opts w2 _ t ev Hw2) as [Hlt Hge].
  destruct Hw2 as (? & ? & ? & _).
  repeat (split; [done|]).
  intros Ht. destruct (Hge Ht ltac:(lia)) as (_ & ? & ? & ? & ? & ?). done.
Qed.

Lemma click_after_touch_double_click_witness :
  let pre := [(900, TouchStart 0%nat); (1000, TouchStart 1%nat);
              (1050, TouchEnd 2%nat); (1100, TouchStart 3%nat)] in
  let fires := [(1700, Fire 1)] in
  let w := run defaultOptions pre initWorld in
  let w2 := run defaultOptions fires
              (worldOf (deliver defaultOptions 1150 (TouchEnd 4%nat) w)) in
  (0 ≤ 1150 ∧ clickCount (refs w) = 1 ∧
   debounced 1150 (lastClickTime (refs w)) = false ∧
   isLongPress (refs w) = false ∧
   1150 - touchStartTime (refs w) < longPressDelay defaultOptions ∧
   returnsNormally (onDoubleClick defaultOptions) 4%nat ∧
   Forall (λ x : Z * Input, isFire x.2 = true) fires) ∧
  clickCount (refs w2) = 0 ∧
  suppressClickUntil (refs w2) = 1150 + 100 ∧
  (1800 < 1150 + 100 →
   deliver defaultOptions 1800 (Click 5%nat) w2 = Ok tt (set_now 1800 w2)) ∧
  (1150 + 100 ≤ 1800 →
   let w3 := worldOf (deliver defaultOptions 1800 (Click 5%nat) w2) in
   clickCount (refs w3) = 1 ∧
   lastClickTime (refs w3) = 1800 ∧
   singleClickTimer (refs w3) = Some (nextId w2) ∧
   pool w3 !! nextId w2 =
     Some {| due := 1800 + timerDelay (delay defaultOptions);
             body := SingleClickBody 5%nat |} ∧
   log w3 = log w2).
Proof.
  assert (returnsNormally (onDoubleClick defaultOptions) 4%nat) as Hret.
  { intros f [= <-]. reflexivity. }
  assert (Forall (λ x : Z * Input, isFire x.2 = true) [(1700, Fire 1)])
    as Hfires by (repeat constructor).
  split.
  - repeat match goal with |- _ ∧ _ => split end;
      first [exact Hret | exact Hfires | reflexivity | cbn; lia].
  - apply (click_after_touch_double_click defaultOptions
             [(900, TouchStart 0%nat); (1000, TouchStart 1%nat);
              (1050, TouchEnd 2%nat); (1100, TouchStart 3%nat)]
             1150 4%nat [(1700, Fire 1)] 1800 5%nat);
      [lia|reflexivity|reflexivity|reflexivity|cbn; lia|exact Hret
      |exact Hfires].
Defined.

(** ** Callbacks and the session reset (C2) *)

(** C2, as stated, fails: when [onSingleClick] is entered after one tap the
    counters are not at their initial values ([clickCount] is 1), and when
    the callback throws [clickCount] stays 1. *)
Lemma counters_not_reset_at_callback :
  let tap := [(1000, TouchStart 1%nat); (1050, TouchEnd 2%nat)] in
  ¬ Forall resetAtInvocation
      (log (advance defaultOptions 1350 (run defaultOptions tap initWorld))) ∧
  clickCount
    (refs (advance throwingOptions 1350 (run throwingOptions tap initWorld)))
  = 1.
Proof.
  split; [|vm_compute; reflexivity].
  intros H. apply Forall_cons in H as [H _]. vm_compute in H.
  destruct H as [H _]. discriminate.
Qed.

Lemma refsBelow_deliver opts t i w :
  refsBelow w → refsBelow (worldOf (deliver opts t i w)).
Proof.
  intros Hb. break_world w. unfold refsBelow in *. mstep.
  assert (∀ id, sct0 = Some id → (id < nid0)%positive) as H1 by eauto.
  assert (∀ id, lpt0 = Some id → (id < nid0)%positive) as H2 by eauto.
  assert (∀ id, st0 = Some id → (id < nid0)%positive) as H3 by eauto.
  clear Hb.
  destruct i.
  8:{ destruct (pl0 !! id) as [[d [e|e|]]|] eqn:Hlk; cases;
      intros j [H|[H|H]]; simplify_eq; eauto. }
  all: cases; intros j [H|[H|H]]; simplify_eq; eauto; try lia.
  all: try (specialize (H1 _ eq_refl); lia).
  all: try (specialize (H2 _ eq_refl); lia).
  all: try (specialize (H3 _ eq_refl); lia).
Qed.

Lemma refsBelow_run opts inputs w :
  refsBelow w → refsBelow (run opts inputs w).
Proof.
  revert w. induction inputs as [|[t i] rest IH]; intros w Hw; [done|].
  cbn [run]. by apply IH, refsBelow_deliver.
Qed.

Lemma refsBelow_init : refsBelow initWorld.
Proof. intros id [H|[H|H]]; discriminate. Qed.

(** One conjunct of [atInvocation]. *)
Ltac at_invocation Hf Hs Hp H1 H2 H3 :=
  first
    [ done
    | lia
    | (* a timer the session held is gone *)
      intros j Hj; simplify_eq;
      match goal with
      | |- ?p !! ?k = None =>
          destruct (p !! k) as [tk|] eqn:Hk; [exfalso|reflexivity];
          lookup_cases Hk;
          try (specialize (H1 _ eq_refl)); try (specialize (H2 _ eq_refl));
          try (specialize (H3 _ eq_refl)); try lia; congruence
      end
    | (* no timer of the kind is pending *)
      apply pending_0; intros j tj Hj; lookup_cases Hj; try reflexivity;
      match goal with
      | |- ?k (body tj) = false =>
          destruct (k (body tj)) eqn:Hkind; [exfalso|reflexivity];
          first [ destruct (Hs _ _ Hj Hkind) | destruct (Hp _ _ Hj Hkind) ];
          simplify_eq; try lia; congruence
      end ].

(** Choose the case of [turnShape] that a branch of a handler realises. *)
Ltac shape Hf Hs Hp H1 H2 H3 :=
  first
    [ left; reflexivity
    | right; left; reflexivity
    | right; right; eexists _, _, _;
      split;
        [| first [ left; repeat split; reflexivity
                 | right; left; repeat split; reflexivity
                 | right; right; repeat split; reflexivity ] ];
      unfold cancelled; mstep; zbool; repeat split;
      at_invocation Hf Hs Hp H1 H2 H3 ].

(** C2, amended.  In every turn of the event loop, from any reachable
    world, at most one callback is invoked.  When it is entered the counters
    have not been reset: [clickCount] is 1 for [onSingleClick], 2 for
    [onDoubleClick], and [isLongPress] is set for [onLongPress].  The
    timers are cancelled only in part: before [onDoubleClick] the
    single-click and long-press timers that the session held are out of the
    host's table and no single-click timer is pending; before [onLongPress]
    all three timers that the session held are out of the table and no
    single-click or suppression timer is pending; when [onSingleClick] is
    entered no single-click timer is pending.  [resetState] runs only after
    a click callback has returned, and not at all after [onLongPress]; a
    callback that throws leaves refs and timers exactly as it found
    them. *)
Theorem callbacks_run_before_reset opts pre t i :
  let w := run opts pre initWorld in
  turnShape w t (deliver opts t i w) (newObs w (worldOf (deliver opts t i w))).
Proof.
  intros w.
  assert (Inv opts w) as [Hf Hs Hp _ _] by apply Inv_run, Inv_init.
  assert (refsBelow w) as Hb by apply refsBelow_run, refsBelow_init.
  clearbody w. break_world w.
  unfold refsBelow in Hb. mstep.
  assert (∀ id, sct0 = Some id → (id < nid0)%positive) as H1 by eauto.
  assert (∀ id, lpt0 = Some id → (id < nid0)%positive) as H2 by eauto.
  assert (∀ id, st0 = Some id → (id < nid0)%positive) as H3 by eauto.
  clear Hb.
  unfold turnShape, atInvocation, isClickCallback.
  destruct i; try (cases; obs_simpl; shape Hf Hs Hp H1 H2 H3).
  mstep. destruct (pl0 !! id) as [[d [e|e|]]|] eqn:Hlk.
  - cases; obs_simpl; shape Hf Hs Hp H1 H2 H3.
  - destruct (Hs _ _ Hlk eq_refl) as [Hsc Hcc]. cbn in Hsc, Hcc.
    cases; obs_simpl; shape Hf Hs Hp H1 H2 H3.
  - cases; obs_simpl; shape Hf Hs Hp H1 H2 H3.
  - cases; obs_simpl; shape Hf Hs Hp H1 H2 H3.
Qed.

(** ** Long press (C3, C10) *)

(** C3, as stated, fails: after the long-press timer fires at 1800, a click
    at 1850 is counted and [onSingleClick] fires at 2150 with no session
    reset in between (two callbacks in one episode); and when the finger is
    released at 1900 and the platform also delivers a click at 1905, the one
    press yields [onLongPress] and then [onSingleClick]. *)
Lemma long_press_then_single_click :
  let held := advance defaultOptions 1800
                (run defaultOptions [(1000, TouchStart 1%nat)] initWorld) in
  let clicked := advance defaultOptions 2150
                   (run defaultOptions [(1850, Click 2%nat)] held) in
  let released := advance defaultOptions 2205
                    (run defaultOptions
                       [(1900, TouchEnd 2%nat); (1905, Click 3%nat)] held) in
  episodes (log clicked) = [[LongPress 1%nat; SingleClick 2%nat]; []] ∧
  ¬ atMostOnePerEpisode (log clicked) ∧
  callbacks (log released) = [LongPress 1%nat; SingleClick 3%nat].
Proof.
  split; [vm_compute; reflexivity|]. split; [|vm_compute; reflexivity].
  intros H. apply Forall_cons in H as [H _]. vm_compute in H. lia.
Qed.

Lemma untilReset_app (P : Obs → Prop) a b :
  Forall P a → Forall P (untilReset b) → Forall P (untilReset (a ++ b)).
Proof.
  intros Ha Hb. induction Ha as [|o a Ho Ha IH]; [done|].
  destruct o; cbn; [constructor; done|constructor].
Qed.

Lemma longPressed_deliver opts t i w :
  longPressed w → touchPath i = true →
  let w' := worldOf (deliver opts t i w) in
  (∃ rest, log w' = log w ++ SessionReset :: rest) ∨
  (longPressed w' ∧ ∃ new, log w' = log w ++ new ∧
     Forall (λ o, isClickObs o = false) new).
Proof.
  intros [Hlp Hns] Hi. break_world w. unfold longPressed. mstep.
  subst lp0.
  destruct i; try discriminate.
  - cases.
    + right. split; [split; [done|]|].
      * intros id tm H. lookup_cases H. eauto.
      * exists []. by rewrite app_nil_r.
    + right. split; [split; [done|]|]; [eauto|].
      exists []. by rewrite app_nil_r.
  - cases; try (left; eexists; reflexivity).
    all: right; (split; [split; [done|]|]); [eauto|].
    all: exists []; by rewrite app_nil_r.
  - cases; left; eexists; reflexivity.
  - cases; left; eexists; reflexivity.
  - cases; right; (split; [split; [done|]|]).
    all: try (exists []; by rewrite app_nil_r).
    all: intros i tm H; lookup_cases H; eauto.
  - destruct (pl0 !! id) as [[d [e|e|]]|] eqn:Hlk.
    2:{ apply Hns in Hlk. discriminate. }
    all: cases; right; (split; [split; [done|]|]).
    all: try (exists []; by rewrite app_nil_r).
    all: try (eexists [_]; split; [reflexivity|]; repeat constructor).
    all: intros i tm H; lookup_cases H; eauto.
Qed.

Lemma longPressed_run opts inputs w :
  longPressed w → Forall (λ x : Z * Input, touchPath x.2 = true) inputs →
  ∃ new, log (run opts inputs w) = log w ++ new ∧
    Forall (λ o, isClickObs o = false) (untilReset new).
Proof.
  revert w. induction inputs as [|[t i] rest IH]; intros w Hw Hin.
  - exists []. by rewrite app_nil_r.
  - apply Forall_cons in Hin as [Hi Hin]. cbn [run].
    destruct (longPressed_deliver opts t i w Hw Hi)
      as [[r Hr]|[Hw' (a & Ha & Hna)]].
    + destruct (run_log opts rest (worldOf (deliver opts t i w))) as [b ->].
      rewrite Hr, <- app_assoc. eexists; split; [reflexivity|]. constructor.
    + destruct (IH _ Hw' Hin) as (b & -> & Hb).
      rewrite Ha, <- app_assoc. eexists; split; [reflexivity|].
      by apply untilReset_app.
Qed.

(** C3, amended.  In any reachable world, when a long-press timer fires it
    sets [isLongPress] and cancels the session's single-click timer, so no
    single-click timer is pending.  From then on, whatever touch-move,
    touch-end, touch-cancel, reset, unmount or timer firing is delivered, no
    [onSingleClick] or [onDoubleClick] is invoked before the session is
    reset; the touch-end that follows, unless the debounce guard drops it,
    invokes nothing and resets the session.  A click or a new touch-start
    is not covered. *)
Theorem long_press_ends_touch_episode opts pre t id tm ev inputs :
  let w := run opts pre initWorld in
  pool w !! id = Some tm → body tm = LongPressBody ev → due tm ≤ t →
  Forall (λ x : Z * Input, touchPath x.2 = true) inputs →
  let w1 := worldOf (deliver opts t (Fire id) w) in
  isLongPress (refs w1) = true ∧
  singleClickTimer (refs w1) = None ∧
  pending isSingleClickBody (pool w1) = 0%nat ∧
  (∀ t' ev', debounced t' (lastClickTime (refs w1)) = false →
     let w2 := worldOf (deliver opts t' (TouchEnd ev') w1) in
     refs w2 = initRefs ∧ log w2 = log w1 ++ [SessionReset]) ∧
  ∃ new, log (run opts inputs w1) = log w ++ new ∧
    Forall (λ o, isClickObs o = false) (untilReset new).
Proof.
  intros w Hid Hb Hdue Hin w1.
  assert (Inv opts w) as [Hf Hs Hp Hl Hr] by apply Inv_run, Inv_init.
  assert (longPressed w1 ∧ singleClickTimer (refs w1) = None ∧
          ∃ a, log w1 = log w ++ a ∧ Forall (λ o, isClickObs o = false) a)
    as ([Hlp Hns] & Hsc & a & Ha & Hna).
  { subst w1. clearbody w. break_world w. destruct tm as [d b].
    cbn in Hb, Hdue. subst b. unfold longPressed. mstep. rewrite Hid.
    apply Z.leb_le in Hdue. mstep. rewrite Hdue.
    cases; (split; [split; [done|]|split; [done|]]).
    all: try (exists []; by rewrite app_nil_r).
    all: try (eexists [_]; split; [reflexivity|]; repeat constructor).
    all: intros i tm H; lookup_cases H;
      destruct (isSingleClickBody (body tm)) eqn:E; [|done];
      destruct (Hs _ _ H E); congruence. }
  split; [done|]. split; [done|]. split; [by apply pending_0|].
  split; [intros t' ev' Hdb; by apply touchEnd_after_long_press|].
  destruct (longPressed_run opts inputs w1 (conj Hlp Hns) Hin)
    as (b & -> & Hb').
  rewrite Ha, <- app_assoc. eexists; split; [reflexivity|].
  by apply untilReset_app.
Qed.

Lemma long_press_ends_touch_episode_witness :
  let w := run defaultOptions [(1000, TouchStart 1%nat)] initWorld in
  let tm := {| due := 1800; body := LongPressBody 1%nat |} in
  let inputs := [(1850, TouchMove); (1900, TouchEnd 2%nat)] in
  let w1 := worldOf (deliver defaultOptions 1800 (Fire 1) w) in
  (pool w !! 1%positive = Some tm ∧ body tm = LongPressBody 1%nat ∧
   due tm ≤ 1800 ∧
   Forall (λ x : Z * Input, touchPath x.2 = true) inputs) ∧
  isLongPress (refs w1) = true ∧
  singleClickTimer (refs w1) = None ∧
  pending isSingleClickBody (pool w1) = 0%nat ∧
  (∀ t' ev', debounced t' (lastClickTime (refs w1)) = false →
     let w2 := worldOf (deliver defaultOptions t' (TouchEnd ev') w1) in
     refs w2 = initRefs ∧ log w2 = log w1 ++ [SessionReset]) ∧
  ∃ new, log (run defaultOptions inputs w1) = log w ++ new ∧
    Forall (λ o, isClickObs o = false) (untilReset new).
Proof.
  assert (Forall (λ x : Z * Input, touchPath x.2 = true)
            [(1850, TouchMove); (1900, TouchEnd 2%nat)]) as Hin
    by (repeat constructor).
  split.
  - split; [reflexivity|]. split; [reflexivity|]. split; [cbn; lia|exact Hin].
  - apply (long_press_ends_touch_episode defaultOptions
             [(1000, TouchStart 1%nat)] 1800 1
             {| due := 1800; body := LongPressBody 1%nat |} 1%nat
             [(1850, TouchMove); (1900, TouchEnd 2%nat)]);
      [reflexivity|reflexivity|cbn; lia|exact Hin].
Defined.

(** C10.  Without an [onLongPress] callback no long-press timer is pending
    in any reachable world and a touch-start arms none.  A touch-end that
    comes at least [longPressDelay] ms after the touch-start, and is not a
    duplicate for the debounce guard, invokes no callback and resets the
    session completely: the refs are the initial ones and no timer is left
    pending, so nothing can fire later. *)
Theorem long_hold_without_long_press_callback opts pre ev0 ev s e :
  onLongPress opts = None →
  let w := run opts pre initWorld in
  longPressDelay opts ≤ e - s →
  debounced e (lastClickTime (refs w)) = false →
  let w1 := worldOf (deliver opts s (TouchStart ev0) w) in
  let w2 := worldOf (deliver opts e (TouchEnd ev) w1) in
  pending isLongPressBody (pool w) = 0%nat ∧
  pool w1 = pool w ∧ longPressTimer (refs w1) = None ∧ log w1 = log w ∧
  returned (deliver opts e (TouchEnd ev) w1) = true ∧
  log w2 = log w ++ [SessionReset] ∧
  refs w2 = initRefs ∧
  pool w2 = ∅.
Proof.
  intros Hn w Hhold Hdb w1 w2.
  assert (Inv opts w) as Hw by apply Inv_run, Inv_init.
  assert (Inv opts w2) as Hw2 by apply Inv_deliver, Inv_deliver, Hw.
  destruct Hw as [Hf Hs Hp Hl Hr].
  split; [apply pending_0; eauto|].
  specialize (Hr Hn).
  assert (pool w1 = pool w ∧ longPressTimer (refs w1) = None ∧
          log w1 = log w ∧
          returned (deliver opts e (TouchEnd ev) w1) = true ∧
          log w2 = log w ++ [SessionReset] ∧ refs w2 = initRefs)
    as (? & ? & ? & ? & ? & Hrefs).
  { subst w1 w2. clearbody w. clear Hf Hs Hp Hl. break_world w.
    mstep. subst lpt0. rewrite Hn. mstep. rewrite Hdb. mstep.
    apply Z.leb_le in Hhold. rewrite Hhold.
    destruct lp0; cases; done. }
  repeat (split; [done|]).
  apply (idle_pool_empty opts w2 Hw2 Hn); by rewrite Hrefs.
Qed.

Lemma long_hold_without_long_press_callback_witness :
  let w := run clickOnlyOptions [] initWorld in
  let w1 := worldOf (deliver clickOnlyOptions 1000 (TouchStart 1%nat) w) in
  let w2 := worldOf (deliver clickOnlyOptions 2000 (TouchEnd 2%nat) w1) in
  (onLongPress clickOnlyOptions = None ∧
   longPressDelay clickOnlyOptions ≤ 2000 - 1000 ∧
   debounced 2000 (lastClickTime (refs w)) = false) ∧
  pending isLongPressBody (pool w) = 0%nat ∧
  pool w1 = pool w ∧ longPressTimer (refs w1) = None ∧ log w1 = log w ∧
  returned (deliver clickOnlyOptions 2000 (TouchEnd 2%nat) w1) = true ∧
  log w2 = log w ++ [SessionReset] ∧
  refs w2 = initRefs ∧
  pool w2 = ∅.
Proof.
  split; [repeat match goal with |- _ ∧ _ => split end;
          first [reflexivity | cbn; lia]|].
  apply (long_hold_without_long_press_callback clickOnlyOptions [] 1%nat
           2%nat 1000 2000); [reflexivity|cbn; lia|reflexivity].
Defined.

(** ** Outstanding timers (C4) *)

(** C4.  [handleTouchStart] arms the long-press timer without cancelling
    the one the session holds: in any reachable world every timer that was
    pending stays pending, and with an [onLongPress] callback the number of
    outstanding long-press timers grows by one.  The ref then holds the new
    timer only, so [clearAllTimers], [handleTouchMove] and the unmount hook
    no longer reach the old one.  With the defaults, after a tap, a touch
    whose end is dropped by the debounce guard and a third touch-start, two
    long-press timers are outstanding; the first of them fires at 1820,
    long after its touch: after a double tap and a later single tap,
    [onLongPress] is invoked with no finger down, the single-click timer of
    the last tap is cancelled, its [onSingleClick] never comes and
    [clickCount] stays 1. *)
Theorem long_press_timer_leaked opts pre t ev :
  let w := run opts pre initWorld in
  let w' := worldOf (deliver opts t (TouchStart ev) w) in
  (∀ id tm, pool w !! id = Some tm → pool w' !! id = Some tm) ∧
  pending isLongPressBody (pool w') =
    ((match onLongPress opts with Some _ => 1 | None => 0 end) +
     pending isLongPressBody (pool w))%nat ∧
  pending isLongPressBody
    (pool (play defaultOptions (take 5 fourTaps) initWorld)) = 2%nat ∧
  let end_ := advance defaultOptions 5000
                (play defaultOptions fourTaps initWorld) in
  callbacks (log end_) = [DoubleClick 6%nat; LongPress 3%nat] ∧
  clickCount (refs end_) = 1 ∧ isLongPress (refs end_) = true ∧
  pool end_ = ∅.
Proof.
  intros w w'.
  assert (Inv opts w) as [Hf _ _ _ _] by apply Inv_run, Inv_init.
  assert (pool w !! nextId w = None) as Hfresh.
  { destruct (pool w !! nextId w) eqn:E; [|done]. apply Hf in E. lia. }
  split; [|split; [|split; [vm_compute; reflexivity|]]].
  - subst w'. clearbody w. break_world w. cases; [|done].
    intros id tm Hi. rewrite lookup_insert_ne; [done|]. congruence.
  - subst w'. clearbody w. break_world w. cases; [|done].
    by rewrite pending_insert.
  - vm_compute. done.
Qed.

(** X20 (handleTouchEnd, handleClick): in every reachable world at most one
    single-click timer is outstanding, and it is the one held in
    [singleClickTimer]. *)
Theorem single_click_timer_unique opts inputs :
  let w := run opts inputs initWorld in
  (pending isSingleClickBody (pool w) ≤ 1)%nat ∧
  (∀ id tm, pool w !! id = Some tm → isSingleClickBody (body tm) = true →
     singleClickTimer (refs w) = Some id).
Proof.
  intros w. assert (Inv opts w) as [Hf Hs Hp Hl Hr]
    by apply Inv_run, Inv_init.
  split.
  - apply pending_le_1. intros i j ti tj Hi Hj Hki Hkj.
    destruct (Hs _ _ Hi Hki) as [Ei _], (Hs _ _ Hj Hkj) as [Ej _]. congruence.
  - intros id tm Hi Hk. by destruct (Hs _ _ Hi Hk).
Qed.

(** ** A single tap (C6) *)

(** C6.  On a fresh session with delays that fit the host's timers, a
    touch-start at [s] and a touch-end at [e] less than [longPressDelay] ms
    later leave [clickCount] at 1 with no callback invoked.  With no
    further input nothing is invoked before [e + delay]; once the clock
    reaches it, [onSingleClick] has been invoked exactly once, at
    [e + delay], with the event of the touch-end, and the session is reset
    with no timer pending. *)
Theorem single_tap_single_click opts f ev0 ev s e :
  onSingleClick opts = Some f → f ev = true →
  delay opts ≤ maxTimerDelay → longPressDelay opts ≤ maxTimerDelay →
  50 ≤ e → s ≤ e → e - s < longPressDelay opts →
  let w1 := play opts [(s, TouchStart ev0); (e, TouchEnd ev)] initWorld in
  let fireAt := e + Z.max 0 (delay opts) in
  clickCount (refs w1) = 1 ∧ log w1 = [] ∧
  (∀ T, T < fireAt →
     log (advance opts T w1) = [] ∧
     clickCount (refs (advance opts T w1)) = 1) ∧
  (∀ T, fireAt ≤ T → ∃ r p,
     log (advance opts T w1) =
       [Invoked fireAt (SingleClick ev) r p; SessionReset] ∧
     refs (advance opts T w1) = initRefs ∧
     pool (advance opts T w1) = ∅).
Proof.
  intros Hf Hfev Hd Hl He Hse Hdur w1 fireAt.
  assert (debounced e 0 = false) as Hdb by (apply Z.ltb_ge; lia).
  assert ((longPressDelay opts <=? e - s) = false) as Hhold
    by (apply Z.leb_gt; lia).
  assert (∃ id, w1 =
    {| refs := {| clickCount := 1; isLongPress := false; touchStartTime := s;
                  singleClickTimer := Some id; longPressTimer := None;
                  lastClickTime := e; isDoubleClickProcessed := false;
                  suppressClickUntil := 0; suppressTimer := None |};
       pool := {[id := {| due := fireAt; body := SingleClickBody ev |}]};
       nextId := Pos.succ id; now := e; log := [] |}) as [id Hw1].
  { subst w1 fireAt. unfold initWorld, initRefs.
    destruct (onLongPress opts) as [lp|] eqn:Elp.
    all: play_step; rewrite ?Elp; mrun;
      play_step; rewrite Hdb; mrun; rewrite Hhold; mrun;
      rewrite play_nil; eexists; repeat f_equal.
    all: rewrite ?delete_insert_eq; reflexivity. }
  clearbody w1. subst w1.
  split; [done|]. split; [done|].
  match goal with |- context [advance opts _ ?w] => set (w1 := w) end.
  split; intros T HT.
  - destruct (advance_singleton opts T w1 id _ eq_refl) as [-> _]; done.
  - destruct (advance_singleton opts T w1 id _ eq_refl) as [_ ->]; [|done].
    subst w1. mstep. rewrite lookup_singleton_eq. mstep.
    assert ((fireAt <=? Z.max e fireAt) = true) as -> by (apply Z.leb_le; lia).
    rewrite Hf. mstep. rewrite Hfev. mstep.
    replace (Z.max e fireAt) with fireAt by lia.
    eexists _, _. split; [reflexivity|]. split; [reflexivity|].
    rewrite delete_singleton_eq. apply delete_empty.
Qed.

Lemma single_tap_single_click_witness :
  let w1 := play defaultOptions
              [(1000, TouchStart 1%nat); (1050, TouchEnd 2%nat)] initWorld in
  let fireAt := 1050 + Z.max 0 (delay defaultOptions) in
  (delay defaultOptions ≤ maxTimerDelay ∧
   longPressDelay defaultOptions ≤ maxTimerDelay ∧
   50 ≤ 1050 ∧ 1000 ≤ 1050 ∧ 1050 - 1000 < longPressDelay defaultOptions) ∧
  clickCount (refs w1) = 1 ∧ log w1 = [] ∧
  (∀ T, T < fireAt →
     log (advance defaultOptions T w1) = [] ∧
     clickCount (refs (advance defaultOptions T w1)) = 1) ∧
  (∀ T, fireAt ≤ T → ∃ r p,
     log (advance defaultOptions T w1) =
       [Invoked fireAt (SingleClick 2%nat) r p; SessionReset] ∧
     refs (advance defaultOptions T w1) = initRefs ∧
     pool (advance defaultOptions T w1) = ∅).
Proof.
  split; [repeat split; unfold maxTimerDelay; cbn; lia|].
  apply (single_tap_single_click defaultOptions (λ _, true) 1%nat 2%nat
           1000 1050);
    first [reflexivity | unfold maxTimerDelay; cbn; lia].
Defined.

(** ** Debounce (C7, C9) *)

(** C7, as stated, fails: the second click of a double click (at 1100) is
    accepted and resets the session, so a click 10 ms later is not debounced
    and is counted again. *)
Lemma duplicate_after_double_click_counted :
  let w0 := run defaultOptions [(1000, Click 1%nat)] initWorld in
  let w1 := worldOf (deliver defaultOptions 1100 (Click 2%nat) w0) in
  let w2 := worldOf (deliver defaultOptions 1110 (Click 3%nat) w1) in
  counted defaultOptions 1100 (Click 2%nat) w0 = true ∧
  clickCount (refs w1) = 0 ∧
  clickCount (refs w2) = 1 ∧
  lastClickTime (refs w2) = 1110 ∧
  deliver defaultOptions 1110 (Click 3%nat) w1 ≠ Ok tt (set_now 1110 w1).
Proof. vm_compute. repeat split; discriminate. Qed.

Lemma awaiting_fire opts c t1 t2 t id w :
  t ≤ t2 → awaiting c t1 t2 w →
  awaiting c t1 t2 (worldOf (deliver opts t (Fire id) w)).
Proof.
  intros Ht (Hc & Hl & Hp). break_world w. unfold awaiting. mstep.
  subst cc0 lct0.
  destruct (pl0 !! id) as [[d [e|e|]]|] eqn:Hlk.
  - cases; repeat (split; [done|]); try done.
    all: intros i tm H; lookup_cases H; eauto.
  - pose proof (Hp _ _ Hlk eq_refl) as Hd. cbn in Hd. mstep.
    assert ((d <=? t) = false) as -> by (apply Z.leb_gt; lia). done.
  - cases; repeat (split; [done|]); try done.
    all: intros i tm H; lookup_cases H; eauto.
  - done.
Qed.

Lemma awaiting_fires opts c t1 t2 fires w :
  Forall (λ x : Z * Input, isFire x.2 = true ∧ x.1 ≤ t2) fires →
  awaiting c t1 t2 w → awaiting c t1 t2 (run opts fires w).
Proof.
  revert w. induction fires as [|[t i] rest IH]; intros w Hf Hw; [done|].
  apply Forall_cons in Hf as [[Hi Ht] Hf]. cbn [run]. apply IH; [done|].
  destruct i; try discriminate. by apply awaiting_fire.
Qed.

(** C7, amended.  In any reachable world, when a touch-end or click passes
    the guards and is counted without completing a double click,
    [clickCount] is incremented and [lastClickTime] is its time [t1].  A
    touch-end or click delivered less than 50 ms after it, and before the
    single-click timer armed at [t1] is due, is discarded, whatever timers
    fire in between: the world is unchanged, so [clickCount] was
    incremented exactly once and [lastClickTime] was not updated. *)
Theorem duplicate_within_50ms_discarded opts pre t1 i1 fires t2 i2 :
  let w := run opts pre initWorld in
  isTap i1 = true → isTap i2 = true →
  counted opts t1 i1 w = true →
  clickCount (refs w) ≠ 1 →
  t2 - t1 < 50 → t2 < t1 + timerDelay (delay opts) →
  Forall (λ x : Z * Input, isFire x.2 = true ∧ x.1 ≤ t2) fires →
  let w1 := worldOf (deliver opts t1 i1 w) in
  let w2 := run opts fires w1 in
  clickCount (refs w1) = clickCount (refs w) + 1 ∧
  lastClickTime (refs w1) = t1 ∧
  clickCount (refs w2) = clickCount (refs w) + 1 ∧
  lastClickTime (refs w2) = t1 ∧
  deliver opts t2 i2 w2 = Ok tt (set_now t2 w2) ∧
  clickCount (refs (worldOf (deliver opts t2 i2 w2))) = clickCount (refs w) + 1.
Proof.
  intros w Hi1 Hi2 Hc Hcc Hlt Hdue Hfires w1 w2.
  assert (Inv opts w) as [Hf Hs Hp Hl Hr] by apply Inv_run, Inv_init.
  assert (awaiting (clickCount (refs w) + 1) t1 t2 w1) as Hw1.
  { subst w1. clearbody w. break_world w. unfold counted in Hc.
    unfold awaiting.
    assert (∀ id tm, pl0 !! id = Some tm →
              isSingleClickBody (body tm) = false) as Hno.
    { intros id tm H. destruct (isSingleClickBody (body tm)) eqn:E; [|done].
      destruct (Hs _ _ H E) as [_ Hone]. cbn in Hone, Hcc. done. }
    destruct i1; try discriminate; mstep.
    - destruct (debounced t1 lct0); [discriminate|]. mstep.
      destruct lp0; [discriminate|]. mstep.
      destruct (longPressDelay opts <=? t1 - ts0); [discriminate|].
      cases; zbool; try lia; repeat (split; [done|]).
      all: intros i tm H E; lookup_cases H; try lia;
        rewrite (Hno _ _ H) in E; discriminate.
    - destruct (t1 <? scu0); [discriminate|]. mstep.
      destruct (debounced t1 lct0); [discriminate|].
      cases; zbool; try lia; repeat (split; [done|]).
      all: intros i tm H E; lookup_cases H; try lia;
        rewrite (Hno _ _ H) in E; discriminate. }
  assert (awaiting (clickCount (refs w) + 1) t1 t2 w2) as Hw2
    by by apply awaiting_fires.
  destruct Hw1 as (E1 & E2 & _), Hw2 as (E3 & E4 & _).
  clearbody w1 w2. repeat (split; [done|]).
  rewrite (tap_discarded opts w2 t2 i2 Hi2).
  - split; [done|]. cbn. done.
  - rewrite E4. apply Z.ltb_lt. done.
Qed.

Lemma duplicate_within_50ms_discarded_witness :
  let pre := [(0, TouchStart 0%nat); (1000, TouchStart 1%nat)] in
  let fires := [(1055, Fire 1)] in
  let w := run defaultOptions pre initWorld in
  let w1 := worldOf (deliver defaultOptions 1050 (TouchEnd 2%nat) w) in
  let w2 := run defaultOptions fires w1 in
  (isTap (TouchEnd 2%nat) = true ∧ isTap (Click 3%nat) = true ∧
   counted defaultOptions 1050 (TouchEnd 2%nat) w = true ∧
   clickCount (refs w) ≠ 1 ∧ 1060 - 1050 < 50 ∧
   1060 < 1050 + timerDelay (delay defaultOptions) ∧
   Forall (λ x : Z * Input, isFire x.2 = true ∧ x.1 ≤ 1060) fires ∧
   callbacks (log w2) = [LongPress 0%nat]) ∧
  clickCount (refs w1) = clickCount (refs w) + 1 ∧
  lastClickTime (refs w1) = 1050 ∧
  clickCount (refs w2) = clickCount (refs w) + 1 ∧
  lastClickTime (refs w2) = 1050 ∧
  deliver defaultOptions 1060 (Click 3%nat) w2 = Ok tt (set_now 1060 w2) ∧
  clickCount (refs (worldOf (deliver defaultOptions 1060 (Click 3%nat) w2))) =
    clickCount (refs w) + 1.
Proof.
  assert (Forall (λ x : Z * Input, isFire x.2 = true ∧ x.1 ≤ 1060)
            [(1055, Fire 1)]) as Hfires.
  { constructor; [|constructor]. split; [reflexivity|cbn; lia]. }
  split.
  - repeat match goal with |- _ ∧ _ => split end;
      first [exact Hfires | reflexivity | cbn; lia | vm_compute; reflexivity].
  - apply (duplicate_within_50ms_discarded defaultOptions
             [(0, TouchStart 0%nat); (1000, TouchStart 1%nat)]
             1050 (TouchEnd 2%nat) [(1055, Fire 1)] 1060 (Click 3%nat));
      first [exact Hfires | reflexivity | cbn; lia | vm_compute; reflexivity].
Defined.

(** C9.  A session reset leaves [lastClickTime] at 0, so an event at any
    time [t >= 50] passes the debounce guard, whatever [lastClickTime] was
    before the reset: a click that is not suppressed is counted, and so is
    the touch-end of a touch that started after the reset. *)
Theorem reset_clears_debounce opts p w t ev0 ev s :
  50 ≤ t →
  let wr := worldOf (resetState p w) in
  lastClickTime (refs wr) = 0 ∧
  debounced t (lastClickTime (refs wr)) = false ∧
  (suppressClickUntil (refs wr) ≤ t →
   let wc := worldOf (deliver opts t (Click ev) wr) in
   clickCount (refs wc) = 1 ∧ lastClickTime (refs wc) = t) ∧
  (t - s < longPressDelay opts →
   let wt := worldOf (deliver opts t (TouchEnd ev)
                        (worldOf (deliver opts s (TouchStart ev0) wr))) in
   clickCount (refs wt) = 1 ∧ lastClickTime (refs wt) = t).
Proof.
  intros Ht wr. destruct (resetState_refs p w) as (_ & Hr & _).
  fold wr in Hr. clearbody wr.
  assert (debounced t 0 = false) as Hdb by (apply Z.ltb_ge; lia).
  rewrite Hr. cbn [lastClickTime set_suppressClickUntil initRefs].
  split; [done|]. split; [done|]. split.
  - intros Hs.
    destruct (click_on_idle_session opts wr _ t ev Hr) as [_ Hge].
    destruct (Hge Hs Ht) as (_ & ? & ? & _). done.
  - intros Hdur. break_world wr. cbn in Hr.
    injection Hr as -> -> -> -> -> -> -> -> ->.
    apply Z.leb_gt in Hdur.
    mstep. destruct (onLongPress opts); mstep; rewrite Hdb; mstep;
      rewrite Hdur; mstep; done.
Qed.

Lemma reset_clears_debounce_witness :
  let w := run defaultOptions [(1000, Click 1%nat)] initWorld in
  let wr := worldOf (resetState false w) in
  (50 ≤ 1010 ∧ debounced 1010 (lastClickTime (refs w)) = true) ∧
  lastClickTime (refs wr) = 0 ∧
  debounced 1010 (lastClickTime (refs wr)) = false ∧
  (suppressClickUntil (refs wr) ≤ 1010 →
   let wc := worldOf (deliver defaultOptions 1010 (Click 3%nat) wr) in
   clickCount (refs wc) = 1 ∧ lastClickTime (refs wc) = 1010) ∧
  (1010 - 1005 < longPressDelay defaultOptions →
   let wt := worldOf (deliver defaultOptions 1010 (TouchEnd 3%nat)
               (worldOf (deliver defaultOptions 1005 (TouchStart 2%nat) wr))) in
   clickCount (refs wt) = 1 ∧ lastClickTime (refs wt) = 1010).
Proof.
  split; [split; [lia|reflexivity]|].
  apply (reset_clears_debounce defaultOptions false _ 1010 2%nat 3%nat 1005).
  lia.
Defined.

(** ** Touch move (C8) *)

(** C8.  [handleTouchMove] returns normally, clears the long-press ref and
    cancels the timer it held; every other ref, every other pending timer,
    the id counter, the clock and the trace (no callback) are left as they
    were. *)
Theorem handleTouchMove_frame (w : World) :
  ∃ w', handleTouchMove w = Ok tt w' ∧
    longPressTimer (refs w') = None ∧
    (∀ id, longPressTimer (refs w) = Some id → pool w' !! id = None) ∧
    (∀ id, longPressTimer (refs w) ≠ Some id → pool w' !! id = pool w !! id) ∧
    clickCount (refs w') = clickCount (refs w) ∧
    isLongPress (refs w') = isLongPress (refs w) ∧
    touchStartTime (refs w') = touchStartTime (refs w) ∧
    lastClickTime (refs w') = lastClickTime (refs w) ∧
    isDoubleClickProcessed (refs w') = isDoubleClickProcessed (refs w) ∧
    suppressClickUntil (refs w') = suppressClickUntil (refs w) ∧
    singleClickTimer (refs w') = singleClickTimer (refs w) ∧
    suppressTimer (refs w') = suppressTimer (refs w) ∧
    nextId w' = nextId w ∧ now w' = now w ∧ log w' = log w.
Proof.
  unfold handleTouchMove. rewrite clearTimer_long_eq.
  eexists; split; [reflexivity|].
  destruct w as [[cc lp ts sct lpt lct dcp scu st] p n t l]; cbn.
  repeat split.
  - intros id ->. cbn. apply lookup_delete_eq.
  - intros id Hne. destruct lpt as [j|]; cbn; [|done].
    apply lookup_delete_ne. congruence.
Qed.

Lemma handleTouchMove_frame_witness :
  let w := run defaultOptions [(1000, TouchStart 1%nat)] initWorld in
  ∃ w', handleTouchMove w = Ok tt w' ∧
    longPressTimer (refs w') = None ∧
    (∀ id, longPressTimer (refs w) = Some id → pool w' !! id = None) ∧
    (∀ id, longPressTimer (refs w) ≠ Some id → pool w' !! id = pool w !! id) ∧
    clickCount (refs w') = clickCount (refs w) ∧
    isLongPress (refs w') = isLongPress (refs w) ∧
    touchStartTime (refs w') = touchStartTime (refs w) ∧
    lastClickTime (refs w') = lastClickTime (refs w) ∧
    isDoubleClickProcessed (refs w') = isDoubleClickProcessed (refs w) ∧
    suppressClickUntil (refs w') = suppressClickUntil (refs w) ∧
    singleClickTimer (refs w') = singleClickTimer (refs w) ∧
    suppressTimer (refs w') = suppressTimer (refs w) ∧
    nextId w' = nextId w ∧ now w' = now w ∧ log w' = log w.
Proof.
  apply (handleTouchMove_frame
           (run defaultOptions [(1000, TouchStart 1%nat)] initWorld)).
Defined.

(** ** Gestures under the ideal host *)

(** Discharge the side conditions of a concrete instance. *)
Ltac concrete :=
  repeat match goal with |- _ ∧ _ => split end;
  first [ reflexivity | cbn; lia | unfold maxTimerDelay; cbn; lia
        | (vm_compute; reflexivity) | (intros ? [= <-]; reflexivity)
        | repeat constructor ].

(** X1 (handleTouchStart, handleTouchEnd): with delays that fit the host's
    timers, two touch taps, each shorter than the long-press delay, whose
    ends lie at least 50 ms and less than [delay] apart, invoke [onDoubleClick] once with the second touch-end
    event and nothing else.  Afterwards every ref has its initial value,
    apart from [suppressClickUntil], which is the second end plus 100; no
    timer is pending, so nothing happens later. *)
Theorem touch_double_tap opts a b c d s1 e1 s2 e2 T :
  returnsNormally (onDoubleClick opts) d →
  delay opts ≤ maxTimerDelay → longPressDelay opts ≤ maxTimerDelay →
  50 ≤ e1 → s1 ≤ e1 → e1 ≤ s2 → s2 ≤ e2 →
  e1 - s1 < longPressDelay opts → e2 - s2 < longPressDelay opts →
  50 ≤ e2 - e1 → e2 - e1 < delay opts →
  let w := play opts [(s1, TouchStart a); (e1, TouchEnd b);
                      (s2, TouchStart c); (e2, TouchEnd d)] initWorld in
  callbacks (log w) =
    match onDoubleClick opts with Some _ => [DoubleClick d] | None => [] end ∧
  refs w = set_suppressClickUntil (e2 + 100) initRefs ∧
  pool w = ∅ ∧
  advance opts T w = set_now (Z.max e2 T) w.
Proof.
  intros Hret Hdm Hlm He1 Hs1 Hs2 He2 Hd1 Hd2 Hgap Hdelay w.
  assert (debounced e1 0 = false) as Hdb1 by (apply Z.ltb_ge; lia).
  assert (debounced e2 e1 = false) as Hdb2 by (apply Z.ltb_ge; lia).
  assert ((longPressDelay opts <=? e1 - s1) = false) as Hl1
    by (apply Z.leb_gt; lia).
  assert ((longPressDelay opts <=? e2 - s2) = false) as Hl2
    by (apply Z.leb_gt; lia).
  unfold returnsNormally in Hret.
  destruct (onLongPress opts) as [lp|] eqn:Elp;
    destruct (onDoubleClick opts) as [f|] eqn:Edc;
    try specialize (Hret f eq_refl).
  all: eassert (w = _) as Hw;
    [ subst w; unfold initWorld, initRefs;
      play_step; rewrite ?Elp; mrun;
      play_step; rewrite Hdb1; mrun; rewrite Hl1; mrun;
      play_step; rewrite ?Elp; mrun;
      play_step; rewrite Hdb2; mrun; rewrite Hl2; mrun;
      rewrite Edc; mrun; rewrite ?Hret; mrun;
      rewrite play_nil; reflexivity |].
  all: rewrite Hw; clear Hw w; repeat split; try reflexivity.
  all: rewrite advance_not_due; [mstep; f_equal; lia|]; mstep;
    intros id tm Hlk; vm_compute in Hlk; discriminate.
Qed.

Lemma touch_double_tap_witness :
  (returnsNormally (onDoubleClick defaultOptions) 4%nat ∧
   delay defaultOptions ≤ maxTimerDelay ∧
   longPressDelay defaultOptions ≤ maxTimerDelay ∧
   50 ≤ 1050 ∧ 1000 ≤ 1050 ∧ 1050 ≤ 1100 ∧ 1100 ≤ 1150 ∧
   1050 - 1000 < longPressDelay defaultOptions ∧
   1150 - 1100 < longPressDelay defaultOptions ∧
   50 ≤ 1150 - 1050 ∧ 1150 - 1050 < delay defaultOptions) ∧
  let w := play defaultOptions
             [(1000, TouchStart 1%nat); (1050, TouchEnd 2%nat);
              (1100, TouchStart 3%nat); (1150, TouchEnd 4%nat)] initWorld in
  callbacks (log w) =
    match onDoubleClick defaultOptions with
    | Some _ => [DoubleClick 4%nat] | None => [] end ∧
  refs w = set_suppressClickUntil (1150 + 100) initRefs ∧
  pool w = ∅ ∧
  advance defaultOptions 5000 w = set_now (Z.max 1150 5000) w.
Proof.
  split; [concrete|].
  apply (touch_double_tap defaultOptions 1%nat 2%nat 3%nat 4%nat
           1000 1050 1100 1150 5000); concrete.
Defined.

(** X2 (handleClick): with a delay that fits the host's timers, two
    clicks at least 50 ms and less than [delay] apart invoke [onDoubleClick] once with the second click event; the
    session is then back in its initial state with no timer pending. *)
Theorem click_double_click opts a b t1 t2 T :
  returnsNormally (onDoubleClick opts) b →
  delay opts ≤ maxTimerDelay →
  50 ≤ t1 → 50 ≤ t2 - t1 → t2 - t1 < delay opts →
  let w := play opts [(t1, Click a); (t2, Click b)] initWorld in
  callbacks (log w) =
    match onDoubleClick opts with Some _ => [DoubleClick b] | None => [] end ∧
  refs w = initRefs ∧
  pool w = ∅ ∧
  advance opts T w = set_now (Z.max t2 T) w.
Proof.
  intros Hret Hdm Ht1 Hgap Hdelay w.
  assert (debounced t1 0 = false) as Hdb1 by (apply Z.ltb_ge; lia).
  assert (debounced t2 t1 = false) as Hdb2 by (apply Z.ltb_ge; lia).
  assert ((t1 <? 0) = false) as Hs1 by (apply Z.ltb_ge; lia).
  assert ((t2 <? 0) = false) as Hs2 by (apply Z.ltb_ge; lia).
  unfold returnsNormally in Hret.
  destruct (onDoubleClick opts) as [f|] eqn:Edc;
    try specialize (Hret f eq_refl).
  all: eassert (w = _) as Hw;
    [ subst w; unfold initWorld, initRefs;
      play_step; rewrite Hs1; mrun; rewrite Hdb1; mrun;
      play_step; rewrite Hs2; mrun; rewrite Hdb2; mrun;
      rewrite Edc; mrun; rewrite ?Hret; mrun;
      rewrite play_nil; reflexivity |].
  all: rewrite Hw; clear Hw w; repeat split; try reflexivity.
  all: rewrite advance_not_due; [mstep; f_equal; lia|]; mstep;
    intros id tm Hlk; vm_compute in Hlk; discriminate.
Qed.

Lemma click_double_click_witness :
  (returnsNormally (onDoubleClick defaultOptions) 2%nat ∧
   delay defaultOptions ≤ maxTimerDelay ∧
   50 ≤ 1000 ∧ 50 ≤ 1100 - 1000 ∧ 1100 - 1000 < delay defaultOptions) ∧
  let w := play defaultOptions [(1000, Click 1%nat); (1100, Click 2%nat)]
             initWorld in
  callbacks (log w) =
    match onDoubleClick defaultOptions with
    | Some _ => [DoubleClick 2%nat] | None => [] end ∧
  refs w = initRefs ∧
  pool w = ∅ ∧
  advance defaultOptions 5000 w = set_now (Z.max 1100 5000) w.
Proof.
  split; [concrete|].
  apply (click_double_click defaultOptions 1%nat 2%nat 1000 1100 5000);
    concrete.
Defined.

(** X3 (handleClick): with a delay that fits the host's timers, after one
    click nothing is invoked before the
    single-click timer is due, at the click plus [delay]; once it is due
    [onSingleClick] is invoked with the click event at that time, the
    session is reset and no timer remains. *)
Theorem click_single_click opts f a t1 T :
  onSingleClick opts = Some f → f a = true →
  delay opts ≤ maxTimerDelay → 50 ≤ t1 →
  let w := advance opts T (play opts [(t1, Click a)] initWorld) in
  let fireAt := t1 + Z.max 0 (delay opts) in
  (T < fireAt → log w = [] ∧ clickCount (refs w) = 1) ∧
  (fireAt ≤ T → ∃ r p,
     log w = [Invoked fireAt (SingleClick a) r p; SessionReset] ∧
     refs w = initRefs ∧ pool w = ∅).
Proof.
  intros Hf Hfa Hdm Ht1 w fireAt. subst fireAt.
  set (fireAt := t1 + Z.max 0 (delay opts)) in *.
  assert (debounced t1 0 = false) as Hdb1 by (apply Z.ltb_ge; lia).
  assert ((t1 <? 0) = false) as Hs1 by (apply Z.ltb_ge; lia).
  eassert (play opts [(t1, Click a)] initWorld = _) as Hw.
  { unfold initWorld, initRefs. play_step. rewrite Hs1. mrun.
    rewrite Hdb1. mrun. rewrite play_nil. fold fireAt. reflexivity. }
  assert (t1 ≤ fireAt) as Hle by (subst fireAt; lia).
  subst w. rewrite Hw. clear Hw. clearbody fireAt.
  match goal with |- context [advance opts T ?x] => set (w1 := x) end.
  assert (pool w1 = {[1%positive :=
            {| due := fireAt; body := SingleClickBody a |}]}) as Hp
    by reflexivity.
  destruct (advance_singleton opts T w1 _ _ Hp) as [Hlt Hge].
  split; intros HT.
  - rewrite Hlt by done. done.
  - rewrite Hge by done. subst w1. mstep. rewrite lookup_insert_eq. mstep.
    assert ((fireAt <=? Z.max t1 fireAt) = true) as ->
      by (apply Z.leb_le; lia).
    mrun. rewrite Hf. mstep. rewrite Hfa. mstep.
    replace (Z.max t1 fireAt) with fireAt by lia.
    eexists _, _. split; [reflexivity|]. split; [reflexivity|].
    vm_compute. reflexivity.
Qed.

Lemma click_single_click_witness :
  (onSingleClick defaultOptions = Some (λ _, true) ∧
   delay defaultOptions ≤ maxTimerDelay ∧ 50 ≤ 1000) ∧
  let w := advance defaultOptions 1300
             (play defaultOptions [(1000, Click 1%nat)] initWorld) in
  let fireAt := 1000 + Z.max 0 (delay defaultOptions) in
  (1300 < fireAt → log w = [] ∧ clickCount (refs w) = 1) ∧
  (fireAt ≤ 1300 → ∃ r p,
     log w = [Invoked fireAt (SingleClick 1%nat) r p; SessionReset] ∧
     refs w = initRefs ∧ pool w = ∅).
Proof.
  split; [concrete|].
  apply (click_single_click defaultOptions (λ _, true) 1%nat 1000 1300);
    concrete.
Defined.

(** X4 (handleTouchMove, handleTouchEnd): a touch that moves before the
    long-press timer is due and is held beyond it invokes no callback
    at all: the move cancels the long-press timer and the touch end
    discards the touch as a hold. *)
Theorem touch_move_prevents_long_press opts a b s m e :
  s ≤ m → m - s < timerDelay (longPressDelay opts) → m ≤ e →
  longPressDelay opts ≤ e - s → 50 ≤ e →
  let w := play opts [(s, TouchStart a); (m, TouchMove); (e, TouchEnd b)]
             initWorld in
  callbacks (log w) = [] ∧ refs w = initRefs ∧ pool w = ∅.
Proof.
  intros Hsm Hm Hme Hhold He w.
  assert (debounced e 0 = false) as Hdb by (apply Z.ltb_ge; lia).
  assert ((longPressDelay opts <=? e - s) = true) as Hl
    by (apply Z.leb_le; lia).
  destruct (onLongPress opts) as [lp|] eqn:Elp.
  all: eassert (w = _) as Hw;
    [ subst w; unfold initWorld, initRefs;
      play_step; rewrite ?Elp; mrun;
      play_step;
      play_step; rewrite Hdb; mrun; rewrite Hl; mrun;
      rewrite play_nil; reflexivity |].
  all: rewrite Hw; clear Hw w; repeat split; try reflexivity.
Qed.

Lemma touch_move_prevents_long_press_witness :
  (1000 ≤ 1200 ∧ 1200 - 1000 < timerDelay (longPressDelay defaultOptions) ∧
   1200 ≤ 2000 ∧ longPressDelay defaultOptions ≤ 2000 - 1000 ∧ 50 ≤ 2000) ∧
  let w := play defaultOptions
             [(1000, TouchStart 1%nat); (1200, TouchMove);
              (2000, TouchEnd 2%nat)] initWorld in
  callbacks (log w) = [] ∧ refs w = initRefs ∧ pool w = ∅.
Proof.
  split; [concrete|].
  apply (touch_move_prevents_long_press defaultOptions 1%nat 2%nat
           1000 1200 2000); concrete.
Defined.

(** X5 (handleTouchStart, handleTouchEnd): a touch held until the
    long-press timer is due invokes [onLongPress] once, at the start plus
    the delay the host uses for [longPressDelay], with the touch-start event and with [isLongPress]
    set; the touch end that follows invokes nothing and leaves the session
    in its initial state, whether or not the callback threw. *)
Theorem long_press_fires_once opts f a b s e :
  onLongPress opts = Some f →
  s + timerDelay (longPressDelay opts) ≤ e → 50 ≤ e →
  let w := play opts [(s, TouchStart a); (e, TouchEnd b)] initWorld in
  ∃ r p,
    log w = [Invoked (s + timerDelay (longPressDelay opts)) (LongPress a) r p;
             SessionReset] ∧
    isLongPress r = true ∧
    refs w = initRefs ∧ pool w = ∅.
Proof.
  intros Hf Hheld He w.
  assert (debounced e 0 = false) as Hdb by (apply Z.ltb_ge; lia).
  set (fireAt := s + timerDelay (longPressDelay opts)) in *.
  assert (s ≤ fireAt) as Hle.
  { pose proof (timerDelay_bounds (longPressDelay opts)). subst fireAt. lia. }
  eassert (play opts [(s, TouchStart a)] initWorld = _) as Hw.
  { unfold initWorld, initRefs. play_step. rewrite Hf. mrun.
    rewrite play_nil. fold fireAt. reflexivity. }
  subst w. change (play opts [(s, TouchStart a); (e, TouchEnd b)] initWorld)
    with (play opts [(e, TouchEnd b)] (play opts [(s, TouchStart a)] initWorld)).
  rewrite Hw. clear Hw. clearbody fireAt. rewrite play_cons.
  match goal with |- context [advance opts e ?x] => set (w1 := x) end.
  assert (pool w1 = {[1%positive :=
            {| due := fireAt; body := LongPressBody a |}]}) as Hp
    by reflexivity.
  destruct (advance_singleton opts e w1 _ _ Hp) as [_ Hge].
  rewrite Hge by done. subst w1. mstep. rewrite lookup_insert_eq. mstep.
  assert ((fireAt <=? Z.max s fireAt) = true) as ->
    by (apply Z.leb_le; lia).
  mrun. rewrite Hf. mstep.
  replace (Z.max s fireAt) with fireAt by lia.
  destruct (f a); mstep; rewrite Hdb; mrun; rewrite play_nil;
    eexists _, _; (split; [reflexivity|]); (split; [reflexivity|]);
    (split; [reflexivity|]); vm_compute; reflexivity.
Qed.

Lemma long_press_fires_once_witness :
  (onLongPress defaultOptions = Some (λ _, true) ∧
   1000 + timerDelay (longPressDelay defaultOptions) ≤ 1900 ∧ 50 ≤ 1900) ∧
  let w := play defaultOptions
             [(1000, TouchStart 1%nat); (1900, TouchEnd 2%nat)] initWorld in
  ∃ r p,
    log w = [Invoked (1000 + timerDelay (longPressDelay defaultOptions))
               (LongPress 1%nat) r p;
             SessionReset] ∧
    isLongPress r = true ∧
    refs w = initRefs ∧ pool w = ∅.
Proof.
  split; [concrete|].
  apply (long_press_fires_once defaultOptions (λ _, true) 1%nat 2%nat
           1000 1900); concrete.
Defined.

(** X6 (handleTouchCancel): in any reachable world a touch cancel does
    what [reset()] does: it returns, every ref gets its initial value, the
    suppression window included, and the only timers left are long-press
    timers of earlier touches that the session no longer refers to. *)
Theorem touch_cancel_resets opts pre t :
  let w := run opts pre initWorld in
  let w' := worldOf (deliver opts t TouchCancel w) in
  deliver opts t TouchCancel w = deliver opts t (Reset false) w ∧
  returned (deliver opts t TouchCancel w) = true ∧
  refs w' = initRefs ∧
  log w' = log w ++ [SessionReset] ∧
  ∀ id tm, pool w' !! id = Some tm →
    pool w !! id = Some tm ∧ isLongPressBody (body tm) = true ∧
    longPressTimer (refs w) ≠ Some id.
Proof.
  intros w w'.
  assert (Inv opts w) as [Hf Hs Hp Hl Hr] by apply Inv_run, Inv_init.
  subst w'. clearbody w. break_world w.
  split; [cases; reflexivity|].
  split; [cases; reflexivity|].
  split; [cases; reflexivity|].
  split; [cases; reflexivity|].
  intros id [d b] Hlk.
  assert (pl0 !! id = Some {| due := d; body := b |} ∧
          sct0 ≠ Some id ∧ lpt0 ≠ Some id ∧ st0 ≠ Some id) as (H0 & H1 & H2 & H3).
  { revert Hlk. cases; intros Hlk; lookup_cases Hlk;
      repeat split; congruence. }
  split; [done|]. split; [|done].
  destruct b; [done|exfalso..].
  - destruct (Hs _ _ H0 eq_refl). done.
  - destruct (Hp _ _ H0 eq_refl). done.
Qed.

Lemma touch_cancel_resets_witness :
  let w := run defaultOptions
             [(900, TouchStart 0%nat); (1000, TouchStart 1%nat);
              (1050, TouchEnd 2%nat)] initWorld in
  let w' := worldOf (deliver defaultOptions 1100 TouchCancel w) in
  deliver defaultOptions 1100 TouchCancel w =
    deliver defaultOptions 1100 (Reset false) w ∧
  returned (deliver defaultOptions 1100 TouchCancel w) = true ∧
  refs w' = initRefs ∧
  log w' = log w ++ [SessionReset] ∧
  ∀ id tm, pool w' !! id = Some tm →
    pool w !! id = Some tm ∧ isLongPressBody (body tm) = true ∧
    longPressTimer (refs w) ≠ Some id.
Proof.
  apply (touch_cancel_resets defaultOptions
           [(900, TouchStart 0%nat); (1000, TouchStart 1%nat);
            (1050, TouchEnd 2%nat)] 1100).
Defined.

Lemma onlyLongPress_fire opts t id w :
  onlyLongPress w →
  let w' := worldOf (deliver opts t (Fire id) w) in
  onlyLongPress w' ∧
  clickCount (refs w') = clickCount (refs w) ∧
  ∃ new, log w' = log w ++ new ∧ Forall (λ o, isClickObs o = false) new.
Proof.
  intros Hp. break_world w. unfold onlyLongPress in *. mstep.
  destruct (pl0 !! id) as [[d [e|e|]]|] eqn:Hlk;
    try (apply Hp in Hlk; discriminate).
  - cases; (split; [|split; [done|]]).
    all: try (exists []; by rewrite app_nil_r).
    all: try (eexists [_]; split; [reflexivity|]; repeat constructor).
    all: intros i tm H; lookup_cases H; eauto.
  - split; [done|]. split; [done|]. exists []. by rewrite app_nil_r.
Qed.

Lemma onlyLongPress_fires opts fires w :
  Forall (λ x : Z * Input, isFire x.2 = true) fires →
  onlyLongPress w →
  clickCount (refs (run opts fires w)) = clickCount (refs w) ∧
  ∃ new, log (run opts fires w) = log w ++ new ∧
    Forall (λ o, isClickObs o = false) new.
Proof.
  revert w. induction fires as [|[t i] rest IH]; intros w Hf Hw.
  - split; [done|]. exists []. by rewrite app_nil_r.
  - apply Forall_cons in Hf as [Hi Hf]. cbn [run].
    destruct i; try discriminate.
    destruct (onlyLongPress_fire opts t id w Hw) as (Hw' & Hc & a & Ha & Hna).
    destruct (IH _ Hf Hw') as (Hc' & b & Hb & Hnb).
    split; [congruence|]. exists (a ++ b).
    rewrite Hb, Ha, <- app_assoc. split; [done|]. by apply Forall_app.
Qed.

(** X7 (onUnmounted): unmounting in any reachable world leaves the click
    counter and the suppression window as they are, invokes nothing and
    removes every single-click and suppression timer and the long-press
    timer the session refers to.  Only long-press timers of earlier
    touches can remain, so no single click or double click is
    reported by any timer that fires afterwards. *)
Theorem unmount_cancels_click_timers opts pre t fires :
  Forall (λ x : Z * Input, isFire x.2 = true) fires →
  let w := run opts pre initWorld in
  let w' := worldOf (deliver opts t Unmount w) in
  clickCount (refs w') = clickCount (refs w) ∧
  suppressClickUntil (refs w') = suppressClickUntil (refs w) ∧
  log w' = log w ∧
  onlyLongPress w' ∧
  (∀ id, longPressTimer (refs w) = Some id → pool w' !! id = None) ∧
  ∃ new, log (run opts fires w') = log w ++ new ∧
    Forall (λ o, isClickObs o = false) new.
Proof.
  intros Hfires w w'.
  assert (Inv opts w) as [Hf Hs Hp Hl Hr] by apply Inv_run, Inv_init.
  assert (clickCount (refs w') = clickCount (refs w) ∧
          suppressClickUntil (refs w') = suppressClickUntil (refs w) ∧
          log w' = log w ∧ onlyLongPress w' ∧
          (∀ id, longPressTimer (refs w) = Some id → pool w' !! id = None))
    as (H1 & H2 & H3 & H4 & H5).
  { subst w'. clearbody w. break_world w. unfold onlyLongPress.
    cases; repeat split; try done.
    all: try (intros id [d b] Hlk; lookup_cases Hlk; destruct b;
              [done|exfalso..];
              [destruct (Hs _ _ Hlk eq_refl)|destruct (Hp _ _ Hlk eq_refl)];
              congruence).
    all: intros id [= <-]; rewrite !lookup_delete;
      repeat case_decide; done. }
  repeat (split; [done|]).
  destruct (onlyLongPress_fires opts fires w' Hfires H4) as (_ & new & Hn & Hc).
  exists new. by rewrite Hn, H3.
Qed.

Lemma unmount_cancels_click_timers_witness :
  let pre := [(900, TouchStart 0%nat); (1000, TouchStart 1%nat);
              (1050, TouchEnd 2%nat)] in
  let fires := [(1350, Fire 3); (1700, Fire 1)] in
  Forall (λ x : Z * Input, isFire x.2 = true) fires ∧
  let w := run defaultOptions pre initWorld in
  let w' := worldOf (deliver defaultOptions 1100 Unmount w) in
  clickCount (refs w') = clickCount (refs w) ∧
  suppressClickUntil (refs w') = suppressClickUntil (refs w) ∧
  log w' = log w ∧
  onlyLongPress w' ∧
  (∀ id, longPressTimer (refs w) = Some id → pool w' !! id = None) ∧
  ∃ new, log (run defaultOptions fires w') = log w ++ new ∧
    Forall (λ o, isClickObs o = false) new.
Proof.
  assert (Forall (λ x : Z * Input, isFire x.2 = true)
            [(1350, Fire 3); (1700, Fire 1)]) as Hf by (repeat constructor).
  split; [exact Hf|].
  apply (unmount_cancels_click_timers defaultOptions
           [(900, TouchStart 0%nat); (1000, TouchStart 1%nat);
            (1050, TouchEnd 2%nat)] 1100 [(1350, Fire 3); (1700, Fire 1)] Hf).
Defined.

Lemma clickCount_nonneg_deliver opts t i w :
  0 ≤ clickCount (refs w) → 0 ≤ clickCount (refs (worldOf (deliver opts t i w))).
Proof.
  intros H. break_world w. mstep.
  destruct i; try (cases; lia).
  destruct (pl0 !! id) as [[d [e|e|]]|] eqn:Hlk; cases; lia.
Qed.

Lemma clickCount_01_deliver opts t i w :
  (∀ ev, returnsNormally (onDoubleClick opts) ev) →
  clickCount (refs w) = 0 ∨ clickCount (refs w) = 1 →
  clickCount (refs (worldOf (deliver opts t i w))) = 0 ∨
  clickCount (refs (worldOf (deliver opts t i w))) = 1.
Proof.
  intros Hnt H. break_world w. mstep.
  assert (∀ f ev, onDoubleClick opts = Some f → f ev = true) as Hd
    by (intros f ev; apply (Hnt ev)).
  destruct i;
    try (cases; zbool; try lia; auto;
         match goal with
         | Hc : ?b ?e = false, Hd' : ∀ f ev, Some ?b = Some f → _ |- _ =>
             rewrite (Hd' b e eq_refl) in Hc; discriminate
         end).
  destruct (pl0 !! id) as [[d [e|e|]]|] eqn:Hlk; cases; auto.
Qed.

(** X8 (clickCount): in every reachable world the exported click counter
    is not negative, and if [onDoubleClick] never throws it is 0 or 1. *)
Theorem clickCount_range opts inputs :
  let w := run opts inputs initWorld in
  0 ≤ clickCount (refs w) ∧
  ((∀ ev, returnsNormally (onDoubleClick opts) ev) →
   clickCount (refs w) = 0 ∨ clickCount (refs w) = 1).
Proof.
  cbn zeta. split.
  - assert (0 ≤ clickCount (refs initWorld)) as H by (cbn; lia).
    revert H. generalize initWorld.
    induction inputs as [|[t i] rest IH]; intros w Hw; [done|].
    cbn [run]. by apply IH, clickCount_nonneg_deliver.
  - intros Hnt.
    assert (clickCount (refs initWorld) = 0 ∨ clickCount (refs initWorld) = 1)
      as H by (left; reflexivity).
    revert H. generalize initWorld.
    induction inputs as [|[t i] rest IH]; intros w Hw; [done|].
    cbn [run]. by apply IH, clickCount_01_deliver.
Qed.

Lemma clickCount_range_witness :
  let inputs := [(1000, Click 1%nat); (1100, Click 2%nat);
                 (1200, Click 3%nat)] in
  (∀ ev, returnsNormally (onDoubleClick defaultOptions) ev) ∧
  let w := run defaultOptions inputs initWorld in
  0 ≤ clickCount (refs w) ∧
  ((∀ ev, returnsNormally (onDoubleClick defaultOptions) ev) →
   clickCount (refs w) = 0 ∨ clickCount (refs w) = 1).
Proof.
  split; [intros ev f [= <-]; reflexivity|].
  apply (clickCount_range defaultOptions
           [(1000, Click 1%nat); (1100, Click 2%nat); (1200, Click 3%nat)]).
Defined.

Lemma tapped_mono past more t0 ev :
  tapped past t0 ev → tapped (past ++ more) t0 ev.
Proof. intros [H|H]; [left|right]; apply elem_of_app; by left. Qed.

Lemma justified_mono opts past more o :
  justified opts past o → justified opts (past ++ more) o.
Proof.
  destruct o as [t [ev|ev|ev] r p|]; cbn; [| | |done].
  - intros (t0 & H & Ht). exists t0. split; [by apply tapped_mono|done].
  - apply tapped_mono.
  - intros (t0 & H & Ht). exists t0. split; [|done]. apply elem_of_app.
    by left.
Qed.

Lemma timerJustified_mono opts past more tm :
  timerJustified opts past tm → timerJustified opts (past ++ more) tm.
Proof.
  unfold timerJustified. destruct (body tm) as [ev|ev|]; [| |done].
  - intros (t0 & H & Ht). exists t0. split; [|done]. apply elem_of_app.
    by left.
  - intros (t0 & H & Ht). exists t0. split; [by apply tapped_mono|done].
Qed.

Lemma accounted_deliver opts past t i w :
  accounted opts past w →
  accounted opts (past ++ [(t, i)]) (worldOf (deliver opts t i w)).
Proof.
  intros [Hlog Hpool].
  assert (Forall (justified opts (past ++ [(t, i)])) (log w)) as Hlog'.
  { eapply Forall_impl; [exact Hlog|]. intros o. apply justified_mono. }
  assert (∀ id tm, pool w !! id = Some tm →
            timerJustified opts (past ++ [(t, i)]) tm) as Hpool'.
  { intros id tm H. by apply timerJustified_mono, (Hpool id). }
  assert ((t, i) ∈ past ++ [(t, i)]) as Hin.
  { apply elem_of_app. right. left. }
  clear Hlog Hpool. revert Hlog' Hpool' Hin. generalize (past ++ [(t, i)]).
  intros past' Hlog' Hpool' Hin.
  break_world w. unfold accounted. mstep.
  destruct i.
  8:{ destruct (pl0 !! id) as [[d [e|e|]]|] eqn:Hlk.
      all: try (pose proof (Hpool' _ _ Hlk) as Hj;
                unfold timerJustified in Hj; cbn in Hj).
      all: cases; (split; [|intros j tm H; lookup_cases H; eauto]).
      all: rewrite ?Forall_app; repeat split; try done.
      all: repeat constructor; cbn; destruct Hj as (t0 & Hj & Hd);
        exists t0; (split; [done|]); zbool; lia. }
  all: cases; (split; [|intros j tm H; lookup_cases H; eauto]).
  all: rewrite ?Forall_app; repeat split; try done.
  all: try (repeat constructor; cbn; unfold tapped; auto; fail).
  all: try (unfold timerJustified; cbn; eexists; split; [|reflexivity];
            unfold tapped; auto; fail).
Qed.

(** X9 (handleTouchStart, handleTouchEnd, handleClick): every callback
    has a cause among the inputs.  A double click is reported at the time
    of a touch end or click, with its event; a single click is reported
    with the event of a touch end or click that lies at least the delay
    the host uses for [delay] back; a long press is reported with the
    event of a touch start that lies at least the delay the host uses for
    [longPressDelay] back. *)
Theorem callbacks_have_cause opts inputs :
  Forall (justified opts inputs) (log (run opts inputs initWorld)).
Proof.
  assert (∀ rest past w, accounted opts past w →
            accounted opts (past ++ rest) (run opts rest w)) as Hrun.
  { induction rest as [|[t i] rest IH]; intros past w Hw.
    - by rewrite app_nil_r.
    - cbn [run]. replace (past ++ (t, i) :: rest)
        with ((past ++ [(t, i)]) ++ rest) by by rewrite <- app_assoc.
      by apply IH, accounted_deliver. }
  apply (Hrun inputs [] initWorld). split; [constructor|].
  intros id tm H. cbn in H. by rewrite lookup_empty in H.
Qed.

(** X10 (handleTouchEnd, handleClick): with delays that fit the host's
    timers, on a device that sends a click after each touch, a double tap is reported once.  The click after the
    first tap falls within the 50 ms debounce, the click after the second
    within the suppression window; afterwards the click counter is 0 and
    no timer is pending. *)
Theorem hybrid_double_tap opts a b c d x y s1 e1 c1 s2 e2 c2 T :
  returnsNormally (onDoubleClick opts) d →
  delay opts ≤ maxTimerDelay → longPressDelay opts ≤ maxTimerDelay →
  50 ≤ e1 → s1 ≤ e1 → e1 ≤ c1 → c1 - e1 < 50 → c1 ≤ s2 → s2 ≤ e2 →
  e2 ≤ c2 → c2 < e2 + 100 →
  e1 - s1 < longPressDelay opts → e2 - s2 < longPressDelay opts →
  50 ≤ e2 - e1 → e2 - e1 < delay opts →
  let w := play opts [(s1, TouchStart a); (e1, TouchEnd b); (c1, Click x);
                      (s2, TouchStart c); (e2, TouchEnd d); (c2, Click y)]
             initWorld in
  callbacks (log w) =
    match onDoubleClick opts with Some _ => [DoubleClick d] | None => [] end ∧
  clickCount (refs w) = 0 ∧
  pool w = ∅ ∧
  advance opts T w = set_now (Z.max c2 T) w.
Proof.
  intros Hret Hdm Hlm He1 Hs1 Hc1 Hc1' Hs2 He2 Hc2 Hc2' Hd1 Hd2 Hgap Hdelay w.
  assert (debounced e1 0 = false) as Hdb1 by (apply Z.ltb_ge; lia).
  assert (debounced c1 e1 = true) as Hdbc by (apply Z.ltb_lt; lia).
  assert (debounced e2 e1 = false) as Hdb2 by (apply Z.ltb_ge; lia).
  assert ((c1 <? 0) = false) as Hsc1 by (apply Z.ltb_ge; lia).
  assert ((c2 <? e2 + 100) = true) as Hsc2 by (apply Z.ltb_lt; lia).
  assert ((longPressDelay opts <=? e1 - s1) = false) as Hl1
    by (apply Z.leb_gt; lia).
  assert ((longPressDelay opts <=? e2 - s2) = false) as Hl2
    by (apply Z.leb_gt; lia).
  unfold returnsNormally in Hret.
  destruct (onLongPress opts) as [lp|] eqn:Elp;
    destruct (onDoubleClick opts) as [f|] eqn:Edc;
    try specialize (Hret f eq_refl).
  all: eassert (w = _) as Hw;
    [ subst w; unfold initWorld, initRefs;
      play_step; rewrite ?Elp; mrun;
      play_step; rewrite Hdb1; mrun; rewrite Hl1; mrun;
      play_step; rewrite Hsc1; mrun; rewrite Hdbc; mrun;
      play_step; rewrite ?Elp; mrun;
      play_step; rewrite Hdb2; mrun; rewrite Hl2; mrun;
      rewrite Edc; mrun; rewrite ?Hret; mrun;
      play_step; rewrite Hsc2; mrun;
      rewrite play_nil; reflexivity |].
  all: rewrite Hw; clear Hw w; repeat split; try reflexivity.
  all: rewrite advance_not_due; [mstep; f_equal; lia|]; mstep;
    intros id tm Hlk; vm_compute in Hlk; discriminate.
Qed.

Lemma hybrid_double_tap_witness :
  (returnsNormally (onDoubleClick defaultOptions) 5%nat ∧
   delay defaultOptions ≤ maxTimerDelay ∧
   longPressDelay defaultOptions ≤ maxTimerDelay ∧
   50 ≤ 1050 ∧ 1000 ≤ 1050 ∧ 1050 ≤ 1055 ∧ 1055 - 1050 < 50 ∧
   1055 ≤ 1100 ∧ 1100 ≤ 1150 ∧ 1150 ≤ 1155 ∧ 1155 < 1150 + 100 ∧
   1050 - 1000 < longPressDelay defaultOptions ∧
   1150 - 1100 < longPressDelay defaultOptions ∧
   50 ≤ 1150 - 1050 ∧ 1150 - 1050 < delay defaultOptions) ∧
  let w := play defaultOptions
             [(1000, TouchStart 1%nat); (1050, TouchEnd 2%nat);
              (1055, Click 3%nat); (1100, TouchStart 4%nat);
              (1150, TouchEnd 5%nat); (1155, Click 6%nat)] initWorld in
  callbacks (log w) =
    match onDoubleClick defaultOptions with
    | Some _ => [DoubleClick 5%nat] | None => [] end ∧
  clickCount (refs w) = 0 ∧
  pool w = ∅ ∧
  advance defaultOptions 5000 w = set_now (Z.max 1155 5000) w.
Proof.
  split; [concrete|].
  apply (hybrid_double_tap defaultOptions 1%nat 2%nat 4%nat 5%nat 3%nat
           6%nat 1000 1050 1055 1100 1150 1155 5000); concrete.
Defined.

(** X11 (handleTouchEnd, handleClick): with delays that fit the host's
    timers, on a device that sends a click after each touch, a single tap followed by its click within 50 ms is
    reported as one single click, with the touch-end event, once the
    single-click timer is due. *)
Theorem hybrid_single_tap opts f a b x s e c T :
  onSingleClick opts = Some f → f b = true →
  delay opts ≤ maxTimerDelay → longPressDelay opts ≤ maxTimerDelay →
  50 ≤ e → s ≤ e → e ≤ c → c - e < 50 → c < e + Z.max 0 (delay opts) →
  e - s < longPressDelay opts →
  e + Z.max 0 (delay opts) ≤ T →
  let w := advance opts T
             (play opts [(s, TouchStart a); (e, TouchEnd b); (c, Click x)]
                initWorld) in
  callbacks (log w) = [SingleClick b] ∧ refs w = initRefs ∧ pool w = ∅.
Proof.
  intros Hf Hfb Hdm Hlm He Hs Hc Hc' Hcd Hd HT w.
  assert (debounced e 0 = false) as Hdb1 by (apply Z.ltb_ge; lia).
  assert (debounced c e = true) as Hdbc by (apply Z.ltb_lt; lia).
  assert ((c <? 0) = false) as Hsc by (apply Z.ltb_ge; lia).
  assert ((longPressDelay opts <=? e - s) = false) as Hl
    by (apply Z.leb_gt; lia).
  destruct (onLongPress opts) as [lp|] eqn:Elp.
  all: eassert (play opts [(s, TouchStart a); (e, TouchEnd b); (c, Click x)]
                  initWorld = _) as Hw;
    [ unfold initWorld, initRefs;
      play_step; rewrite ?Elp; mrun;
      play_step; rewrite Hdb1; mrun; rewrite Hl; mrun;
      play_step; rewrite Hsc; mrun; rewrite Hdbc; mrun;
      rewrite play_nil; reflexivity |].
  all: subst w; rewrite Hw; clear Hw.
  all: set (fireAt := e + Z.max 0 (delay opts)) in *.
  all: assert (c ≤ fireAt) as Hle by (subst fireAt; lia).
  all: clearbody fireAt.
  all: match goal with |- context [advance _ _ ?x] => set (w1 := x) end.
  all: match goal with
       | w1 := {| pool := <[?k := ?v]> _ |} |- context [advance _ ?T' _] =>
         assert (pool w1 = {[k := v]}) as Hp by reflexivity;
         destruct (advance_singleton opts T' w1 _ _ Hp) as [_ Hge]
       end.
  all: rewrite Hge by done; subst w1; mstep;
    first [rewrite lookup_insert_eq | idtac]; mstep.
  all: assert ((fireAt <=? Z.max c fireAt) = true) as ->
    by (apply Z.leb_le; lia).
  all: mrun; rewrite Hf; mstep; rewrite Hfb; mstep.
  all: repeat split; try reflexivity; vm_compute; reflexivity.
Qed.

Lemma hybrid_single_tap_witness :
  (onSingleClick defaultOptions = Some (λ _, true) ∧
   delay defaultOptions ≤ maxTimerDelay ∧
   longPressDelay defaultOptions ≤ maxTimerDelay ∧
   50 ≤ 1050 ∧ 1000 ≤ 1050 ∧ 1050 ≤ 1055 ∧ 1055 - 1050 < 50 ∧
   1055 < 1050 + Z.max 0 (delay defaultOptions) ∧
   1050 - 1000 < longPressDelay defaultOptions ∧
   1050 + Z.max 0 (delay defaultOptions) ≤ 1350) ∧
  let w := advance defaultOptions 1350
             (play defaultOptions
                [(1000, TouchStart 1%nat); (1050, TouchEnd 2%nat);
                 (1055, Click 3%nat)] initWorld) in
  callbacks (log w) = [SingleClick 2%nat] ∧ refs w = initRefs ∧ pool w = ∅.
Proof.
  split; [concrete|].
  apply (hybrid_single_tap defaultOptions (λ _, true) 1%nat 2%nat 3%nat
           1000 1050 1055 1350); concrete.
Defined.

Lemma pick_in l b : foldr pickEarlier None l = Some b → b ∈ l.
Proof.
  revert b. induction l as [|a l IH]; intros b H; [discriminate|].
  cbn [foldr] in H. unfold pickEarlier at 1 in H.
  destruct (foldr pickEarlier None l) as [c|].
  - destruct (earlier a c); simplify_eq; [left|right; by apply IH].
  - simplify_eq. left.
Qed.

Lemma pick_least l b :
  foldr pickEarlier None l = Some b → ∀ x, x ∈ l → due b.2 ≤ due x.2.
Proof.
  revert b. induction l as [|a l IH]; intros b H x Hx; [by apply elem_of_nil in Hx|].
  cbn [foldr] in H. unfold pickEarlier at 1 in H.
  destruct (foldr pickEarlier None l) as [c|] eqn:E.
  - specialize (IH c eq_refl). unfold earlier in H.
    destruct (due a.2 <? due c.2) eqn:E1; cbn in H.
    + simplify_eq. apply Z.ltb_lt in E1.
      apply elem_of_cons in Hx as [->|Hx]; [lia|]. specialize (IH x Hx). lia.
    + apply Z.ltb_ge in E1.
      destruct ((due a.2 =? due c.2) && (a.1 <? c.1)%positive) eqn:E2;
        simplify_eq.
      * apply andb_true_iff in E2 as [E2 _]. apply Z.eqb_eq in E2.
        apply elem_of_cons in Hx as [->|Hx]; [lia|]. specialize (IH x Hx). lia.
      * apply elem_of_cons in Hx as [->|Hx]; [lia|]. by apply IH.
  - simplify_eq. destruct l as [|c l]; [|cbn in E; unfold pickEarlier in E;
      destruct (foldr _ None l); [destruct (earlier c p)|]; discriminate].
    apply list_elem_of_singleton in Hx. subst. lia.
Qed.

Lemma earliest_strict_min (p : gmap positive Timer) id tm :
  p !! id = Some tm →
  (∀ j tj, p !! j = Some tj → j ≠ id → due tm < due tj) →
  earliest p = Some (id, tm).
Proof.
  intros Hid Hmin.
  change (earliest p) with (foldr pickEarlier None (map_to_list p)).
  assert ((id, tm) ∈ map_to_list p) as Hin by by apply elem_of_map_to_list.
  destruct (foldr pickEarlier None (map_to_list p)) as [[j tj]|] eqn:E.
  - pose proof (pick_least _ _ E _ Hin) as Hle. apply pick_in in E.
    apply elem_of_map_to_list in E. cbn in Hle.
    destruct (decide (j = id)) as [->|Hne]; [congruence|].
    specialize (Hmin _ _ E Hne). lia.
  - destruct (map_to_list p) as [|c l]; [by apply elem_of_nil in Hin|].
    cbn in E. unfold pickEarlier in E.
    destruct (foldr _ None l) as [b|]; [destruct (earlier c b)|]; discriminate.
Qed.

Lemma advanceN_empty opts n T w :
  pool w = ∅ → advanceN opts n T w = set_now (Z.max (now w) T) w.
Proof.
  intros Hp. destruct n; [done|]. cbn [advanceN]. rewrite Hp.
  unfold earliest. by rewrite map_to_list_empty.
Qed.

Lemma advance_only_due opts T w id tm :
  pool w !! id = Some tm → due tm ≤ T →
  (∀ j tj, pool w !! j = Some tj → j ≠ id → due tm < due tj) →
  let w' := worldOf (deliver opts (Z.max (now w) (due tm)) (Fire id) w) in
  pool w' = ∅ →
  advance opts T w = set_now (Z.max (now w') T) w'.
Proof.
  intros Hid Hdue Hmin w' Hp'. unfold advance.
  destruct (size (pool w)) as [|n] eqn:Hsz.
  { apply map_size_empty_iff in Hsz. rewrite Hsz in Hid.
    by rewrite lookup_empty in Hid. }
  cbn [advanceN]. rewrite (earliest_strict_min _ id tm Hid Hmin).
  apply Z.leb_le in Hdue. rewrite Hdue. by apply advanceN_empty.
Qed.

(** X12 (handleTouchStart, handleTouchEnd): with delays that fit the
    host's timers, a second tap that begins
    before the single-click timer of the first is due and ends after it is
    lost.  The timer reports the first tap and resets [touchStartTime] to
    0, so the end of the second touch measures its duration from 0 and
    discards the touch as a hold. *)
Theorem tap_across_single_click_expiry opts f a b c d s1 e1 s2 e2 :
  onSingleClick opts = Some f → f b = true →
  delay opts ≤ maxTimerDelay → longPressDelay opts ≤ maxTimerDelay →
  50 ≤ e1 → s1 ≤ e1 → e1 ≤ s2 → s2 ≤ e2 →
  e1 - s1 < longPressDelay opts → e2 - s2 < longPressDelay opts →
  s2 < e1 + Z.max 0 (delay opts) → e1 + Z.max 0 (delay opts) ≤ e2 →
  longPressDelay opts ≤ e2 →
  let w := play opts [(s1, TouchStart a); (e1, TouchEnd b);
                      (s2, TouchStart c); (e2, TouchEnd d)] initWorld in
  callbacks (log w) = [SingleClick b] ∧ refs w = initRefs ∧ pool w = ∅.
Proof.
  intros Hf Hfb Hdm Hlm He1 Hs1 Hs2 He2 Hd1 Hd2 Hbefore Hafter Hepoch w.
  assert (debounced e1 0 = false) as Hdb1 by (apply Z.ltb_ge; lia).
  assert (debounced e2 0 = false) as Hdb2 by (apply Z.ltb_ge; lia).
  assert ((longPressDelay opts <=? e1 - s1) = false) as Hl1
    by (apply Z.leb_gt; lia).
  assert ((longPressDelay opts <=? e2 - 0) = true) as Hl2
    by (apply Z.leb_le; lia).
  destruct (onLongPress opts) as [lp|] eqn:Elp.
  all: eassert (play opts [(s1, TouchStart a); (e1, TouchEnd b);
                           (s2, TouchStart c)] initWorld = _) as Hw;
    [ unfold initWorld, initRefs;
      play_step; rewrite ?Elp; mrun;
      play_step; rewrite Hdb1; mrun; rewrite Hl1; mrun;
      play_step; rewrite ?Elp; mrun;
      rewrite play_nil; reflexivity |].
  all: subst w;
    change (play opts [(s1, TouchStart a); (e1, TouchEnd b);
                       (s2, TouchStart c); (e2, TouchEnd d)] initWorld)
    with (play opts [(e2, TouchEnd d)]
            (play opts [(s1, TouchStart a); (e1, TouchEnd b);
                        (s2, TouchStart c)] initWorld));
    rewrite Hw; clear Hw; rewrite play_cons.
  all: set (fireAt := e1 + Z.max 0 (delay opts)) in *.
  all: match goal with |- context [advance _ _ ?x] => set (w1 := x) end.
  all: match goal with
       | w1 := {| refs := {| singleClickTimer := Some ?k |} |} |- _ =>
           rewrite (advance_only_due opts e2 w1 k
                      {| due := fireAt; body := SingleClickBody b |})
       end.
  all: try (subst w1; mstep; first [reflexivity | lia]).
  all: try (subst w1; mstep; intros j tj Hlk Hne; pool_cases Hlk; mstep;
            subst fireAt; lia).
  all: subst w1; mstep; rewrite ?lookup_insert_eq; mstep.
  all: try rewrite lookup_insert_ne by done; rewrite ?lookup_insert_eq; mstep.
  all: assert ((fireAt <=? Z.max s2 fireAt) = true) as Hle
         by (apply Z.leb_le; lia); rewrite ?Hle; mrun;
       rewrite ?Hf; mstep; rewrite ?Hfb; mstep.
  all: try (vm_compute; reflexivity).
  all: rewrite ?Hdb2; mrun; rewrite ?Hl2; mrun; rewrite ?play_nil.
  all: repeat split; try reflexivity; try (vm_compute; reflexivity).
Qed.

Lemma tap_across_single_click_expiry_witness :
  (onSingleClick defaultOptions = Some (λ _, true) ∧
   delay defaultOptions ≤ maxTimerDelay ∧
   longPressDelay defaultOptions ≤ maxTimerDelay ∧
   50 ≤ 1050 ∧ 1000 ≤ 1050 ∧ 1050 ≤ 1300 ∧ 1300 ≤ 1400 ∧
   1050 - 1000 < longPressDelay defaultOptions ∧
   1400 - 1300 < longPressDelay defaultOptions ∧
   1300 < 1050 + Z.max 0 (delay defaultOptions) ∧
   1050 + Z.max 0 (delay defaultOptions) ≤ 1400 ∧
   longPressDelay defaultOptions ≤ 1400) ∧
  let w := play defaultOptions
             [(1000, TouchStart 1%nat); (1050, TouchEnd 2%nat);
              (1300, TouchStart 3%nat); (1400, TouchEnd 4%nat)] initWorld in
  callbacks (log w) = [SingleClick 2%nat] ∧ refs w = initRefs ∧ pool w = ∅.
Proof.
  split; [concrete|].
  apply (tap_across_single_click_expiry defaultOptions (λ _, true)
           1%nat 2%nat 3%nat 4%nat 1000 1050 1300 1400); concrete.
Defined.

(** ** The logger *)

Section LoggerFacts.
Import Logger.
Local Open Scope nat_scope.
Context {V : Type} (toStr : V → string).

Lemma logger_get_None (o : Fields (V:=V)) k :
  get o k = None ↔ k ∉ o.*1.
Proof.
  induction o as [|[j w] o IH]; cbn.
  - split; [intros _; apply not_elem_of_nil|done].
  - rewrite not_elem_of_cons. case_decide as E.
    + split; [done|]. intros [Hne _]. by subst.
    + rewrite IH. split; [intros H; split; [congruence|done]|tauto].
Qed.

Lemma logger_get_replaceKey (o : Fields (V:=V)) k v k' :
  is_Some (get o k) →
  get (replaceKey o k v) k' = if decide (k = k') then Some v else get o k'.
Proof.
  induction o as [|[j w] o IH]; cbn; intros Hk.
  - by destruct Hk.
  - destruct (decide (j = k)) as [->|Hne]; cbn.
    + repeat case_decide; congruence.
    + rewrite IH by done. repeat case_decide; congruence.
Qed.

Lemma logger_get_insertKey (o : Fields (V:=V)) k v k' :
  get o k = None →
  get (insertKey o k v) k' = if decide (k = k') then Some v else get o k'.
Proof.
  induction o as [|[j w] o IH]; cbn; intros Hk.
  - done.
  - destruct (decide (j = k)) as [->|Hne]; [done|].
    destruct (indexBefore k j); cbn; [done|].
    rewrite IH by done. repeat case_decide; congruence.
Qed.

Lemma logger_get_assign (o : Fields (V:=V)) k v k' :
  get (assign o k v) k' = if decide (k = k') then Some v else get o k'.
Proof.
  unfold assign. destruct (get o k) eqn:E.
  - apply logger_get_replaceKey. by rewrite E.
  - by apply logger_get_insertKey.
Qed.

Lemma logger_keys_replaceKey (o : Fields (V:=V)) k v :
  (replaceKey o k v).*1 = o.*1.
Proof.
  induction o as [|[j w] o IH]; cbn; [done|].
  case_decide; cbn; [done|]. by rewrite IH.
Qed.

Lemma logger_keys_insertKey (o : Fields (V:=V)) k v :
  (insertKey o k v).*1 ≡ₚ k :: o.*1.
Proof.
  induction o as [|[j w] o IH]; cbn; [done|].
  destruct (indexBefore k j); cbn; [done|].
  rewrite IH. apply Permutation_swap.
Qed.

Lemma logger_get_spread (a b : Fields (V:=V)) k :
  get (spread a b) k =
  match get (spread [] b) k with Some v => Some v | None => get a k end.
Proof.
  assert (∀ (b a : Fields (V:=V)),
    get (spread a b) k =
    foldl (λ acc kv, if decide (kv.1 = k) then Some kv.2 else acc)
      (get a k) b) as H.
  { clear. unfold spread. induction b as [|[j w] b IH]; intros a; [done|].
    cbn [foldl]. rewrite IH, logger_get_assign. done. }
  rewrite !H. cbn. generalize (get a k). clear.
  induction b as [|[j w] b IH] using rev_ind; intros o; [done|].
  rewrite !foldl_app. cbn. case_decide; [done|]. apply IH.
Qed.

Lemma logger_get_spread_nil (o : Fields (V:=V)) k :
  NoDup o.*1 → get (spread [] o) k = get o k.
Proof.
  intros Hnd.
  assert (∀ (b a : Fields (V:=V)),
    get (spread a b) k =
    foldl (λ acc kv, if decide (kv.1 = k) then Some kv.2 else acc)
      (get a k) b) as H.
  { clear. unfold spread. induction b as [|[j w] b IH]; intros a; [done|].
    cbn [foldl]. rewrite IH, logger_get_assign. done. }
  rewrite H. cbn [get]. clear H.
  assert (∀ (b : Fields (V:=V)) acc, k ∉ b.*1 →
    foldl (λ acc kv, if decide (kv.1 = k) then Some kv.2 else acc) acc b
    = acc) as Hskip.
  { clear. induction b as [|[j w] b IH]; intros acc Hk; [done|].
    cbn in *. apply not_elem_of_cons in Hk as [Hne Hk].
    rewrite decide_False by done. by apply IH. }
  induction o as [|[j w] o IH]; [done|].
  cbn in *. apply NoDup_cons in Hnd as [Hj Hnd].
  case_decide as E.
  - subst. by apply Hskip.
  - by apply IH.
Qed.

Lemma logger_get_deleteKey (o : Fields (V:=V)) k k' :
  get (deleteKey o k) k' = if decide (k = k') then None else get o k'.
Proof.
  unfold deleteKey. induction o as [|[j w] o IH]; [by case_decide|].
  rewrite filter_cons. cbn [fst get].
  destruct (decide (j ≠ k)) as [Hne|Heq].
  - cbn [get]. rewrite IH. repeat case_decide; congruence.
  - apply dec_stable in Heq. subst j. rewrite IH.
    repeat case_decide; congruence.
Qed.

Lemma logger_get_deleteKeys (names : list string) (o : Fields (V:=V)) k :
  get (foldl deleteKey o names) k =
  if decide (k ∈ names) then None else get o k.
Proof.
  revert o. induction names as [|n names IH]; intros o.
  - cbn. rewrite decide_False; [done|]. apply not_elem_of_nil.
  - cbn [foldl]. rewrite IH, logger_get_deleteKey.
    destruct (decide (k ∈ names)) as [Hin|Hnin].
    + rewrite decide_True; [done|]. by right.
    + destruct (decide (n = k)) as [->|Hne].
      * rewrite decide_True; [done|]. left.
      * rewrite decide_False; [done|].
        intros [->|H]%elem_of_cons; done.
Qed.

Lemma logger_keys_assign (o : Fields (V:=V)) k v :
  NoDup o.*1 → NoDup (assign o k v).*1.
Proof.
  intros Hnd. unfold assign. destruct (get o k) eqn:E.
  - by rewrite logger_keys_replaceKey.
  - rewrite logger_keys_insertKey. apply NoDup_cons. split; [|done].
    by apply logger_get_None.
Qed.

Lemma logger_keys_spread (b a : Fields (V:=V)) :
  NoDup a.*1 → NoDup (spread a b).*1.
Proof.
  unfold spread. revert a. induction b as [|[j w] b IH]; intros a Ha; [done|].
  cbn [foldl]. apply IH. by apply logger_keys_assign.
Qed.

Lemma logger_keys_deleteKeys (names : list string) (o : Fields (V:=V)) :
  NoDup o.*1 → NoDup (foldl deleteKey o names).*1.
Proof.
  revert o. induction names as [|n names IH]; intros o Ho; [done|].
  cbn [foldl]. apply IH. unfold deleteKey.
  clear IH. induction o as [|[j w] o IH]; [done|].
  cbn in Ho. apply NoDup_cons in Ho as [Hj Ho]. rewrite filter_cons.
  case_decide; [|by apply IH]. cbn. apply NoDup_cons. split; [|by apply IH].
  intros Hin. apply Hj. apply list_elem_of_fmap in Hin as (x & -> & Hx).
  apply list_elem_of_filter in Hx as [_ Hx]. apply list_elem_of_fmap. eauto.
Qed.

Lemma logger_wf_init : wf (V:=V) initState.
Proof.
  unfold initState, new. cbn. split; cbn.
  - intros l o p H. apply lookup_insert_Some in H as [[_ <-]|[_ H]];
      [done|by rewrite lookup_empty in H].
  - intros l o H. apply lookup_insert_Some in H as [[_ <-]|[_ H]];
      [by eexists|by rewrite lookup_empty in H].
  - intros l o H. apply lookup_insert_Some in H as [[_ <-]|[_ H]];
      [apply NoDup_nil_2|by rewrite lookup_empty in H].
  - intros l o g H. apply lookup_insert_Some in H as [[_ <-]|[_ H]];
      [intros [= <-]; apply NoDup_nil_2|by rewrite lookup_empty in H].
Qed.

Lemma logger_root_parentless (s : State (V:=V)) this :
  wf s → is_Some (heap s !! this) →
  ∃ r, heap s !! getRootLogger s this = Some r ∧ parentLogger r = None.
Proof.
  intros Hwf [o Ho]. unfold getRootLogger. rewrite Ho.
  destruct (parentLogger o) as [p|] eqn:Hp; cbn.
  - by apply (wf_parent s Hwf this o).
  - eauto.
Qed.

(** A change of one instance that keeps its parent and its dictionaries in
    order keeps the state well formed. *)
Lemma logger_wf_alter (s : State (V:=V)) f l :
  wf s →
  (∀ o, parentLogger (f o) = parentLogger o) →
  (∀ o, NoDup (localRequiredFields o).*1 →
        NoDup (localRequiredFields (f o)).*1) →
  (∀ o, is_Some (globalRequiredFields o) →
        is_Some (globalRequiredFields (f o))) →
  (∀ o g', (∀ g, globalRequiredFields o = Some g → NoDup g.*1) →
        globalRequiredFields (f o) = Some g' → NoDup g'.*1) →
  wf (set_heap (alter f l (heap s)) s).
Proof.
  intros [H1 H2 H3 H4] Hp Hl Hg Hgk. split; cbn.
  - intros l' o p Ho Hpo.
    assert (∃ o0, heap s !! l' = Some o0 ∧ parentLogger o0 = Some p)
      as (o0 & Ho0 & Hp0).
    { destruct (decide (l = l')) as [->|Hne].
      - rewrite lookup_alter_eq in Ho.
        destruct (heap s !! l') as [o0|] eqn:E; [|done]. cbn in Ho.
        simplify_eq. rewrite Hp in Hpo. eauto.
      - rewrite lookup_alter_ne in Ho by done. eauto. }
    destruct (H1 _ _ _ Ho0 Hp0) as (r & Hr & Hrp).
    destruct (decide (l = p)) as [->|Hne].
    + exists (f r). rewrite lookup_alter_eq, Hr. split; [done|].
      by rewrite Hp.
    + exists r. by rewrite lookup_alter_ne.
  - intros l' o Ho Hpo.
    destruct (decide (l = l')) as [->|Hne].
    + rewrite lookup_alter_eq in Ho.
      destruct (heap s !! l') as [o0|] eqn:E; [|done]. cbn in Ho.
      simplify_eq. rewrite Hp in Hpo. eauto.
    + rewrite lookup_alter_ne in Ho by done. eauto.
  - intros l' o Ho.
    destruct (decide (l = l')) as [->|Hne].
    + rewrite lookup_alter_eq in Ho.
      destruct (heap s !! l') as [o0|] eqn:E; [|done]. cbn in Ho.
      simplify_eq. eauto.
    + rewrite lookup_alter_ne in Ho by done. eauto.
  - intros l' o g Ho Hgo.
    destruct (decide (l = l')) as [->|Hne].
    + rewrite lookup_alter_eq in Ho.
      destruct (heap s !! l') as [o0|] eqn:E; [|done]. cbn in Ho.
      simplify_eq. eapply Hgk; [|done]. eauto.
    + rewrite lookup_alter_ne in Ho by done. eauto.
Qed.

Lemma logger_wf_new (s : State (V:=V)) name this :
  wf s → is_Some (heap s !! this) →
  wf (create name s this).2.
Proof.
  intros Hwf Hthis.
  destruct (logger_root_parentless s this Hwf Hthis) as (r & Hr & Hrp).
  destruct Hwf as [H1 H2 H3 H4].
  unfold create, new. cbn.
  set (l := fresh (dom (heap s))).
  assert (heap s !! l = None) as Hfresh.
  { apply not_elem_of_dom. apply is_fresh. }
  split; cbn.
  - intros l' o p Ho Hpo.
    apply lookup_insert_Some in Ho as [[<- <-]|[Hne Ho]].
    + cbn in Hpo. simplify_eq. exists r. split; [|done].
      rewrite lookup_insert_ne; [done|]. intros E. rewrite <- E in Hr.
      congruence.
    + destruct (H1 _ _ _ Ho Hpo) as (r' & Hr' & Hrp'). exists r'.
      split; [|done]. rewrite lookup_insert_ne; [done|]. intros E.
      rewrite <- E in Hr'. congruence.
  - intros l' o Ho Hpo.
    apply lookup_insert_Some in Ho as [[<- <-]|[Hne Ho]]; [done|eauto].
  - intros l' o Ho.
    apply lookup_insert_Some in Ho as [[<- <-]|[Hne Ho]];
      [apply NoDup_nil_2|eauto].
  - intros l' o g Ho Hg.
    apply lookup_insert_Some in Ho as [[<- <-]|[Hne Ho]]; [done|eauto].
Qed.

Lemma logger_wf_write (s : State (V:=V)) lv ps : wf s → wf (write lv ps s).
Proof. intros [H1 H2 H3 H4]. split; cbn; eauto. Qed.

Lemma logger_wf_step (op : Op (V:=V)) s : wf s → wf (step toStr op s).
Proof.
  intros Hwf. unfold step. case_decide as Hthis; [|done].
  destruct op; cbn in Hthis.
  - by apply logger_wf_new.
  - apply logger_wf_alter; cbn; try done;
      try (intros ? ? Hk ?; by eapply Hk).
    intros o g' _ [= <-]. apply logger_keys_spread, logger_keys_spread.
    apply NoDup_nil_2.
  - apply logger_wf_alter; cbn; try done;
      try (intros ? ? Hk ?; by eapply Hk).
    intros o _. apply logger_keys_spread, logger_keys_spread.
    apply NoDup_nil_2.
  - unfold removeGlobalRequiredFields. cbv zeta.
    destruct fieldNames as [|n names]; [done|].
    destruct (heap s !! getRootLogger s this) as [o|] eqn:Ho; [|done].
    destruct (globalRequiredFields o) as [g|] eqn:Hg; [|done]. cbn.
    replace (<[getRootLogger s this :=
                set_global (Some (foldl deleteKey (deleteKey g n) names)) o]>
               (heap s))
      with (alter (set_global (Some (foldl deleteKey (deleteKey g n) names)))
              (getRootLogger s this) (heap s)).
    2:{ apply map_eq. intros i.
        destruct (decide (getRootLogger s this = i)) as [<-|Hne].
        - by rewrite lookup_alter_eq, lookup_insert_eq, Ho.
        - by rewrite lookup_alter_ne, lookup_insert_ne. }
    pose proof (wf_global_keys s Hwf _ _ _ Ho Hg) as Hnd.
    apply logger_wf_alter; cbn; try done;
      try (intros ? ? Hk ?; by eapply Hk).
    intros o' g' _ [= <-].
    by apply (logger_keys_deleteKeys (n :: names)).
  - apply logger_wf_alter; cbn; try done;
      try (intros ? ? Hk ?; by eapply Hk).
    intros o. apply logger_keys_deleteKeys.
  - apply logger_wf_alter; cbn; try done;
      try (intros ? ? Hk ?; by eapply Hk). intros o _. apply NoDup_nil_2.
  - apply logger_wf_alter; cbn; try done;
      try (intros ? ? Hk ?; by eapply Hk).
    intros o g' _ [= <-]. apply NoDup_nil_2.
  - unfold registerErrorCallback. destruct callback; [|done].
    apply logger_wf_alter; cbn; try done;
      try (intros ? ? Hk ?; by eapply Hk).
  - apply logger_wf_alter; cbn; try done;
      try (intros ? ? Hk ?; by eapply Hk).
  - by apply logger_wf_write.
  - unfold error.
    destruct (heap s !! getRootLogger s this) as [r|];
      [|by apply logger_wf_write].
    destruct (errorCallback r) as [f|]; [|by apply logger_wf_write].
    match goal with |- context [if ?b then _ else _] => destruct b end.
    + destruct Hwf as [H1 H2 H3 H4]. split; cbn; eauto.
    + apply logger_wf_write. destruct Hwf as [H1 H2 H3 H4].
      split; cbn; eauto.
Qed.

Lemma logger_wf_steps (ops : list (Op (V:=V))) s :
  wf s → wf (steps toStr ops s).
Proof.
  unfold steps. revert s. induction ops as [|op ops IH]; intros s Hs; [done|].
  cbn. by apply IH, logger_wf_step.
Qed.

Lemma logger_getAll_lookup (s : State (V:=V)) l k :
  wf s →
  get (getAllRequiredFields s l) k =
  match get (localFields s l) k with
  | Some v => Some v
  | None => get (rootGlobalFields s (getRootLogger s l)) k
  end.
Proof.
  intros Hwf. unfold getAllRequiredFields, localFields. cbv zeta.
  rewrite logger_get_spread.
  assert (NoDup (rootGlobalFields s (getRootLogger s l)).*1) as Hg.
  { unfold rootGlobalFields.
    destruct (heap s !! getRootLogger s l) as [r|] eqn:Hr;
      [|apply NoDup_nil_2].
    destruct (globalRequiredFields r) as [g|] eqn:Hgr; [|apply NoDup_nil_2].
    by apply (wf_global_keys s Hwf _ _ _ Hr Hgr). }
  assert (NoDup (match heap s !! l with
                 | Some o => localRequiredFields o
                 | None => []
                 end).*1) as Hl.
  { destruct (heap s !! l) as [o|] eqn:Ho; [|apply NoDup_nil_2].
    by apply (wf_local_keys s Hwf _ _ Ho). }
  by rewrite !logger_get_spread_nil.
Qed.

(** X13 (constructor, create, getRootLogger, removeGlobalRequiredFields):
    in every state reached from the exported [baseLogger] by method calls
    the hierarchy has depth one: the parent of a logger is a parentless
    logger that owns the global fields.  Hence [getRootLogger] of a root
    is that root, [removeGlobalRequiredFields] never throws, and [create]
    on any logger returns a new instance with the same root and no local
    fields, leaving every other instance as it was. *)
Theorem logger_hierarchy_is_flat (ops : list (Op (V:=V))) :
  let s := steps toStr ops initState in
  (∀ l o p, heap s !! l = Some o → parentLogger o = Some p →
     ∃ r, heap s !! p = Some r ∧ parentLogger r = None ∧
          is_Some (globalRequiredFields r)) ∧
  (∀ this, is_Some (heap s !! this) →
     getRootLogger s (getRootLogger s this) = getRootLogger s this ∧
     ∀ names, is_Some (removeGlobalRequiredFields names s this)) ∧
  (∀ this name, is_Some (heap s !! this) →
     let c := (create name s this).1 in
     let s' := (create name s this).2 in
     heap s !! c = None ∧
     getRootLogger s' c = getRootLogger s this ∧
     localFields s' c = [] ∧
     ∀ l, l ≠ c → heap s' !! l = heap s !! l).
Proof.
  intros s. assert (wf s) as Hwf by apply logger_wf_steps, logger_wf_init.
  clearbody s. split; [|split].
  - intros l o p Ho Hp. destruct (wf_parent s Hwf _ _ _ Ho Hp) as (r & Hr & Hrp).
    exists r. repeat split; try done. by apply (wf_global s Hwf p).
  - intros this Hthis.
    destruct (logger_root_parentless s this Hwf Hthis) as (r & Hr & Hrp).
    split.
    + unfold getRootLogger at 1. by rewrite Hr, Hrp.
    + intros names. unfold removeGlobalRequiredFields. cbv zeta.
      destruct names; [by eexists|]. rewrite Hr.
      destruct (wf_global s Hwf _ _ Hr Hrp) as [g ->]. by eexists.
  - intros this name Hthis. cbn.
    assert (heap s !! fresh (dom (heap s)) = None) as Hfresh.
    { apply not_elem_of_dom. apply is_fresh. }
    split; [done|]. split; [|split].
    + unfold getRootLogger at 1. cbn. by rewrite lookup_insert_eq.
    + unfold localFields. cbn. by rewrite lookup_insert_eq.
    + intros l Hne. by rewrite lookup_insert_ne.
Qed.

Lemma logger_root_alter (s : State (V:=V)) f l this :
  (∀ o, parentLogger (f o) = parentLogger o) →
  getRootLogger (set_heap (alter f l (heap s)) s) this = getRootLogger s this.
Proof.
  intros Hp. unfold getRootLogger. cbn.
  destruct (decide (l = this)) as [->|Hne].
  - rewrite lookup_alter_eq. destruct (heap s !! this); cbn; [|done].
    by rewrite Hp.
  - by rewrite lookup_alter_ne.
Qed.

(** X14 (setGlobalRequiredFields, getAllRequiredFields): global fields
    set through one logger are seen by every logger with the same root.
    A key reads as the local field of the reading logger if it has one,
    else as the value just set, else as the global field it had before. *)
Theorem logger_global_fields_shared (ops : list (Op (V:=V))) fields a b k :
  let s := steps toStr ops initState in
  is_Some (heap s !! a) → sameRoot s a b →
  let s' := setGlobalRequiredFields fields s a in
  get (getAllRequiredFields s' b) k =
  match get (localFields s b) k with
  | Some v => Some v
  | None =>
      match get (spread [] fields) k with
      | Some v => Some v
      | None => get (rootGlobalFields s (getRootLogger s b)) k
      end
  end.
Proof.
  intros s Ha Hab s'.
  assert (wf s) as Hwf by apply logger_wf_steps, logger_wf_init.
  assert (wf s') as Hwf'.
  { apply (logger_wf_step (OpSetGlobalRequiredFields fields a)) in Hwf.
    unfold step in Hwf. cbn in Hwf. by rewrite decide_True in Hwf. }
  rewrite (logger_getAll_lookup s' b k Hwf').
  destruct (logger_root_parentless s a Hwf Ha) as (r & Hr & Hrp).
  unfold sameRoot in Hab.
  assert (getRootLogger s' b = getRootLogger s b) as ->
    by by apply logger_root_alter.
  assert (localFields s' b = localFields s b) as ->.
  { unfold localFields, s', setGlobalRequiredFields. cbn.
    destruct (decide (getRootLogger s a = b)) as [E|Hne].
    - rewrite E, lookup_alter_eq. by destruct (heap s !! b).
    - by rewrite lookup_alter_ne. }
  destruct (get (localFields s b) k); [done|].
  unfold rootGlobalFields at 1, s', setGlobalRequiredFields. cbn.
  rewrite <- Hab, lookup_alter_eq, Hr. cbn.
  rewrite logger_get_spread,
    (logger_get_spread_nil (rootGlobalFields s (getRootLogger s a)));
    [done|].
  unfold rootGlobalFields. rewrite Hr.
  destruct (globalRequiredFields r) as [g|] eqn:Hg; [|apply NoDup_nil_2].
  by apply (wf_global_keys s Hwf _ _ _ Hr Hg).
Qed.

(** X15 (removeRequiredFields, getAllRequiredFields): removing local
    fields from a logger uncovers the global fields of the same names, and
    every other key and every other logger reads as before. *)
Theorem logger_remove_required_fields (ops : list (Op (V:=V))) names l b k :
  let s := steps toStr ops initState in
  let s' := removeRequiredFields names s l in
  get (getAllRequiredFields s' l) k =
    (if decide (k ∈ names)
     then get (rootGlobalFields s (getRootLogger s l)) k
     else get (getAllRequiredFields s l) k) ∧
  (b ≠ l → getAllRequiredFields s' b = getAllRequiredFields s b).
Proof.
  intros s s'.
  assert (wf s) as Hwf by apply logger_wf_steps, logger_wf_init.
  assert (wf s') as Hwf'.
  { apply logger_wf_alter; cbn; try done;
      try (intros ? ? Hk ?; by eapply Hk).
    intros o. apply logger_keys_deleteKeys. }
  assert (∀ x, getRootLogger s' x = getRootLogger s x) as Hroot
    by (intros x; by apply logger_root_alter).
  assert (∀ x, rootGlobalFields s' x = rootGlobalFields s x) as Hglob.
  { intros x. unfold rootGlobalFields, s', removeRequiredFields. cbn.
    destruct (decide (l = x)) as [->|Hne].
    - rewrite lookup_alter_eq. by destruct (heap s !! x).
    - by rewrite lookup_alter_ne. }
  split.
  - rewrite (logger_getAll_lookup s' l k Hwf'), (logger_getAll_lookup s l k Hwf).
    rewrite Hroot, Hglob.
    assert (get (localFields s' l) k =
            if decide (k ∈ names) then None else get (localFields s l) k)
      as ->.
    { unfold localFields, s', removeRequiredFields. cbn.
      rewrite lookup_alter_eq. destruct (heap s !! l) as [o|]; cbn.
      - apply logger_get_deleteKeys.
      - by case_decide. }
    by case_decide.
  - intros Hne. unfold getAllRequiredFields. cbv zeta.
    rewrite Hroot, Hglob. unfold localFields, s', removeRequiredFields. cbn.
    by rewrite lookup_alter_ne.
Qed.

(** X16 (removeGlobalRequiredFields, clearGlobalRequiredFields): removing
    global fields through any logger returns, and a logger with the same
    root then reads a removed key as its local field only; other keys are
    unchanged.  After [clearGlobalRequiredFields] every key reads as the
    local field. *)
Theorem logger_remove_global_fields (ops : list (Op (V:=V))) names a b k :
  let s := steps toStr ops initState in
  is_Some (heap s !! a) → sameRoot s a b →
  (∃ s', removeGlobalRequiredFields names s a = Some s' ∧
     get (getAllRequiredFields s' b) k =
       if decide (k ∈ names) then get (localFields s b) k
       else get (getAllRequiredFields s b) k) ∧
  get (getAllRequiredFields (clearGlobalRequiredFields s a) b) k =
    get (localFields s b) k.
Proof.
  intros s Ha Hab.
  assert (wf s) as Hwf by apply logger_wf_steps, logger_wf_init.
  destruct (logger_root_parentless s a Hwf Ha) as (r & Hr & Hrp).
  destruct (wf_global s Hwf _ _ Hr Hrp) as [g Hg].
  unfold sameRoot in Hab. split.
  - pose proof (logger_wf_step (OpRemoveGlobalRequiredFields names a) s Hwf)
      as Hwf'.
    unfold step in Hwf'. cbn in Hwf'. rewrite decide_True in Hwf' by done.
    revert Hwf'. unfold removeGlobalRequiredFields. cbv zeta.
    destruct names as [|n names].
    { intros _. eexists; split; [done|]. rewrite decide_False.
      - done.
      - apply not_elem_of_nil. }
    rewrite Hr, Hg. cbn. intros Hwf'. eexists; split; [done|].
    match goal with |- context [getAllRequiredFields ?x _] => set (s' := x) in * end.
    rewrite (logger_getAll_lookup s' b k Hwf'), (logger_getAll_lookup s b k Hwf).
    assert (getRootLogger s' b = getRootLogger s b) as ->.
    { unfold getRootLogger, s'. cbn.
      destruct (decide (getRootLogger s a = b)) as [E|Hne].
      - rewrite E, lookup_insert_eq. rewrite E in Hr. by rewrite Hr.
      - by rewrite lookup_insert_ne. }
    assert (localFields s' b = localFields s b) as ->.
    { unfold localFields, s'. cbn.
      destruct (decide (getRootLogger s a = b)) as [E|Hne].
      - rewrite E, lookup_insert_eq. rewrite E in Hr. by rewrite Hr.
      - by rewrite lookup_insert_ne. }
    destruct (get (localFields s b) k); [by case_decide|].
    unfold rootGlobalFields, s'. cbn. rewrite <- Hab, lookup_insert_eq, Hr, Hg.
    cbn. apply (logger_get_deleteKeys (n :: names)).
  - assert (wf (clearGlobalRequiredFields s a)) as Hwf'.
    { apply logger_wf_alter; cbn; try done;
        try (intros ? ? Hk ?; by eapply Hk).
      intros o g' _ [= <-]. apply NoDup_nil_2. }
    rewrite (logger_getAll_lookup _ b k Hwf').
    unfold clearGlobalRequiredFields.
    rewrite logger_root_alter by done.
    assert (localFields (set_heap (alter (set_global (Some []))
              (getRootLogger s a) (heap s)) s) b = localFields s b) as ->.
    { unfold localFields. cbn.
      destruct (decide (getRootLogger s a = b)) as [E|Hne].
      - rewrite E, lookup_alter_eq. by destruct (heap s !! b).
      - by rewrite lookup_alter_ne. }
    destruct (get (localFields s b) k); [done|].
    unfold rootGlobalFields. cbn. by rewrite <- Hab, lookup_alter_eq, Hr.
Qed.

Lemma logger_frame_errorCallback (s : State (V:=V)) g l :
  let s1 := set_heap (alter (set_errorCallback g) l (heap s)) s in
  (∀ x, getRootLogger s1 x = getRootLogger s x) ∧
  (∀ x, localFields s1 x = localFields s x) ∧
  (∀ x, rootGlobalFields s1 x = rootGlobalFields s x) ∧
  (∀ x, moduleNameOf s1 x = moduleNameOf s x).
Proof.
  intros s1. repeat split; intros x.
  - by apply logger_root_alter.
  - unfold localFields, s1. cbn. destruct (decide (l = x)) as [->|Hne].
    + rewrite lookup_alter_eq. by destruct (heap s !! x).
    + by rewrite lookup_alter_ne.
  - unfold rootGlobalFields, s1. cbn. destruct (decide (l = x)) as [->|Hne].
    + rewrite lookup_alter_eq. by destruct (heap s !! x).
    + by rewrite lookup_alter_ne.
  - unfold moduleNameOf, s1. cbn. destruct (decide (l = x)) as [->|Hne].
    + rewrite lookup_alter_eq. by destruct (heap s !! x).
    + by rewrite lookup_alter_ne.
Qed.

Lemma logger_frame_prefix (s s1 : State (V:=V)) stamp x :
  getRootLogger s1 x = getRootLogger s x →
  localFields s1 x = localFields s x →
  rootGlobalFields s1 (getRootLogger s x) =
    rootGlobalFields s (getRootLogger s x) →
  moduleNameOf s1 x = moduleNameOf s x →
  getAllRequiredFields s1 x = getAllRequiredFields s x ∧
  getLogPrefix toStr stamp s1 x = getLogPrefix toStr stamp s x.
Proof.
  intros H1 H2 H3 H4.
  assert (getAllRequiredFields s1 x = getAllRequiredFields s x) as Hall.
  { unfold getAllRequiredFields. cbv zeta. by rewrite H1, H2, H3. }
  split; [done|].
  unfold getLogPrefix, getRequiredFieldsString, getModuleNameString.
  cbv zeta. by rewrite Hall, H4.
Qed.

(** X17 (registerErrorCallback, unregisterErrorCallback, error): a
    callback registered through one logger is invoked, once, by [error]
    on any logger with the same root, with the module name and all
    required fields of the logger that reports and the arguments given.
    The console gets the error line first, and a second line when the
    callback throws, which [error] swallows.  Registering something that
    is not a function changes nothing, and after [unregisterErrorCallback]
    nothing is invoked. *)
Theorem logger_error_callback (ops : list (Op (V:=V))) f stamp stamp' args
    a b :
  let s := steps toStr ops initState in
  is_Some (heap s !! a) → sameRoot s a b →
  let s1 := registerErrorCallback (Some f) s a in
  let context :=
    {| ctx_moduleName := moduleNameOf s b;
       ctx_requiredFields := getAllRequiredFields s b;
       ctx_timestamp := stamp' |} in
  let line := (LevelError,
               map Text (getLogPrefix toStr stamp s b) ++ map Value args) in
  let s2 := error toStr stamp stamp' args s1 b in
  invoked s2 = invoked s ++ [(context, args)] ∧
  console s2 =
    console s ++ line ::
      (if f context args then []
       else [(LevelError, [Text "Error callback execution failed:"; Caught])])
  ∧
  registerErrorCallback None s1 a = s1 ∧
  invoked (error toStr stamp stamp' args (unregisterErrorCallback s1 a) b) =
    invoked s.
Proof.
  intros s Ha Hab s1 context line s2.
  assert (wf s) as Hwf by apply logger_wf_steps, logger_wf_init.
  destruct (logger_root_parentless s a Hwf Ha) as (r & Hr & Hrp).
  unfold sameRoot in Hab.
  destruct (logger_frame_errorCallback s (Some f) (getRootLogger s a))
    as (F1 & F2 & F3 & F4).
  fold s1 in F1, F2, F3, F4. change (registerErrorCallback (Some f) s a)
    with (set_heap (alter (set_errorCallback (Some f)) (getRootLogger s a)
                      (heap s)) s) in s1.
  destruct (logger_frame_prefix s s1 stamp b (F1 b) (F2 b) (F3 _) (F4 b))
    as [Hall Hprefix].
  assert (heap s1 !! getRootLogger s1 b = Some (set_errorCallback (Some f) r))
    as Hr1.
  { rewrite F1, <- Hab. unfold s1. cbn. by rewrite lookup_alter_eq, Hr. }
  split; [|split; [|split]].
  - subst s2. unfold error. rewrite Hr1. cbn [errorCallback set_errorCallback].
    rewrite Hall, Hprefix, F4. fold context.
    by destruct (f context args).
  - subst s2. unfold error. rewrite Hr1. cbn [errorCallback set_errorCallback].
    rewrite Hall, Hprefix, F4. fold context. fold line.
    destruct (f context args); cbn; [done|].
    by rewrite <- app_assoc.
  - done.
  - unfold unregisterErrorCallback.
    destruct (logger_frame_errorCallback s1 None (getRootLogger s1 a))
      as (G1 & G2 & G3 & G4).
    unfold error. rewrite G1, F1, <- Hab. cbn [heap set_heap].
    rewrite F1, lookup_alter_eq. unfold s1 at 1. cbn [heap set_heap].
    by rewrite lookup_alter_eq, Hr.
Qed.

Lemma logger_append_empty (a b : string) : a +:+ b = "" → a = "" ∧ b = "".
Proof. destruct a; cbn; [done|discriminate]. Qed.

Lemma logger_join_empty (sep : string) (l : list string) :
  (∀ x, x ∈ l → x ≠ "") → join sep l = "" → l = [].
Proof.
  destruct l as [|x l]; [done|]. intros Hx Hj. exfalso.
  apply (Hx x); [left|]. cbn in Hj. destruct l; [done|].
  by apply logger_append_empty in Hj as [? _].
Qed.

Lemma logger_arrayIndex_inj k k' n :
  arrayIndex k = Some n → arrayIndex k' = Some n → k = k'.
Proof.
  unfold arrayIndex. intros H H'.
  destruct k as [|c k]; [done|]. destruct k' as [|c' k']; [done|].
  destruct (parseDigits 0 (String c k)) as [m|]; [|done].
  destruct (parseDigits 0 (String c' k')) as [m'|]; [|done].
  repeat case_decide; simplify_eq. destruct_and?. congruence.
Qed.

Lemma logger_indexBefore_asym k k' :
  indexBefore k k' = true → indexBefore k' k = false.
Proof.
  unfold indexBefore.
  destruct (arrayIndex k) as [n|], (arrayIndex k') as [n'|]; try done.
  intros H%N.ltb_lt. apply N.ltb_ge. lia.
Qed.

Lemma logger_indexBefore_trans a b c :
  indexBefore a b = true → indexBefore b c = true → indexBefore a c = true.
Proof.
  unfold indexBefore.
  destruct (arrayIndex a) as [x|], (arrayIndex b) as [y|],
    (arrayIndex c) as [z|]; try done.
  intros H1%N.ltb_lt H2%N.ltb_lt. apply N.ltb_lt. lia.
Qed.

Lemma logger_insertKey_perm (o : Fields (V:=V)) k v :
  insertKey o k v ≡ₚ (k, v) :: o.
Proof.
  induction o as [|[j w] o IH]; cbn; [done|].
  destruct (indexBefore k j); [done|].
  rewrite IH. apply Permutation_swap.
Qed.

Lemma logger_enumerated_insertKey (o : Fields (V:=V)) k v :
  enumerated o → enumerated (insertKey o k v).
Proof.
  induction o as [|[j w] o IH]; cbn; intros Ho; [by split|].
  destruct Ho as [Hj Ho]. destruct (indexBefore k j) eqn:E; cbn.
  - split; [|by split]. constructor; cbn.
    + by apply logger_indexBefore_asym.
    + eapply Forall_impl; [exact Hj|]. cbn. intros [i u] Hi. cbn in *.
      destruct (indexBefore i k) eqn:E'; [|done].
      by rewrite (logger_indexBefore_trans _ _ _ E' E) in Hi.
  - split; [|by apply IH].
    rewrite logger_insertKey_perm. by constructor.
Qed.

Lemma logger_enumerated_replaceKey (o : Fields (V:=V)) k v :
  enumerated o → enumerated (replaceKey o k v).
Proof.
  induction o as [|[j w] o IH]; cbn; intros Ho; [done|].
  destruct Ho as [Hj Ho]. case_decide; cbn; [by split|].
  split; [|by apply IH].
  apply Forall_forall. intros [i u] Hi. cbn.
  assert (i ∈ (replaceKey o k v).*1) as Hk
    by (apply list_elem_of_fmap; by exists (i, u)).
  rewrite logger_keys_replaceKey in Hk.
  apply list_elem_of_fmap in Hk as ([i' u'] & -> & Hk).
  rewrite Forall_forall in Hj. apply (Hj _ Hk).
Qed.

Lemma logger_enumerated_spread (b a : Fields (V:=V)) :
  enumerated a → enumerated (spread a b).
Proof.
  unfold spread. revert a. induction b as [|[j w] b IH]; intros a Ha; [done|].
  cbn [foldl]. apply IH. unfold assign. cbn.
  destruct (get a j);
    [by apply logger_enumerated_replaceKey
    |by apply logger_enumerated_insertKey].
Qed.

Lemma logger_enumerated_lookup (o : Fields (V:=V)) (i j : nat) a b :
  enumerated o → o !! i = Some a → o !! j = Some b → i < j →
  indexBefore b.1 a.1 = false.
Proof.
  revert i j. induction o as [|x o IH]; intros i j Ho Hi Hj Hlt; [done|].
  destruct Ho as [Hx Ho]. destruct j as [|j]; [lia|].
  destruct i as [|i]; cbn in *.
  - simplify_eq. rewrite Forall_forall in Hx. apply Hx.
    by eapply list_elem_of_lookup_2.
  - apply (IH i j); [done..|lia].
Qed.

(** Global then local: with an array index among the local fields the
    printed order is not the order of insertion. *)
Lemma logger_spread_array_index_first (x y z : V) :
  spread (spread [] [("b", x); ("a", y)]) [("1", z)] =
  [("1", z); ("b", x); ("a", y)].
Proof. reflexivity. Qed.

(** X18 (getAllRequiredFields, getRequiredFieldsString, getLogPrefix): the
    required fields of a log line are listed as JavaScript enumerates the
    merged object: no key twice, and a key that is an array index comes
    after smaller array indices only, so array indices come first in
    ascending order and the other keys follow.  The prefix is the time
    stamp, then the bracketed module name exactly when the module name is
    not empty, then the bracketed list exactly when there is at least one
    required field. *)
Theorem logger_prefix_shape (s : State (V:=V)) stamp l :
  let fs := getAllRequiredFields s l in
  NoDup fs.*1 ∧
  (∀ (i j : nat) k k' n, fs.*1 !! i = Some k → fs.*1 !! j = Some k' →
     i < j → arrayIndex k' = Some n →
     ∃ m, arrayIndex k = Some m ∧ (m < n)%N) ∧
  getLogPrefix toStr stamp s l =
    stamp ::
    (if decide (moduleNameOf s l = "") then []
     else ["[" +:+ moduleNameOf s l +:+ "]"]) ++
    match fs with
    | [] => []
    | _ => ["[" +:+ join " " (map (λ kv, kv.1 +:+ ":" +:+ toStr kv.2) fs)
            +:+ "]"]
    end.
Proof.
  intros fs.
  assert (NoDup fs.*1) as Hnd.
  { apply logger_keys_spread, logger_keys_spread. apply NoDup_nil_2. }
  assert (enumerated fs) as Hen.
  { apply logger_enumerated_spread, logger_enumerated_spread. done. }
  split; [done|]. split.
  - intros i j k k' n Hi Hj Hlt Hn.
    rewrite list_lookup_fmap in Hi, Hj.
    apply fmap_Some in Hi as (a & Ea & ->).
    apply fmap_Some in Hj as (b & Eb & ->).
    pose proof (logger_enumerated_lookup fs i j a b Hen Ea Eb Hlt) as Hord.
    unfold indexBefore in Hord. rewrite Hn in Hord.
    destruct (arrayIndex a.1) as [m|] eqn:Em; [|done].
    exists m. split; [done|]. apply N.ltb_ge in Hord.
    destruct (decide (m = n)) as [->|Hne]; [|lia].
    exfalso. pose proof (logger_arrayIndex_inj _ _ _ Em Hn) as Hk.
    assert (i = j); [|lia].
    apply (NoDup_lookup _ _ _ a.1 Hnd); rewrite list_lookup_fmap.
    + by rewrite Ea.
    + rewrite Eb. cbn. by rewrite Hk.
  - subst fs.
    unfold getLogPrefix, getModuleNameString, getRequiredFieldsString.
    cbv zeta. cbn [app]. f_equal. f_equal.
    + destruct (decide (moduleNameOf s l = "")) as [E|E];
        [by rewrite decide_True|by rewrite decide_False].
    + destruct (getAllRequiredFields s l) as [|kv fs] eqn:E.
      * cbn. by rewrite decide_True.
      * destruct (decide (join " " (map (λ kv0 : string * V,
                   kv0.1 +:+ ":" +:+ toStr kv0.2) (kv :: fs)) = "")) as [J|J].
        -- apply logger_join_empty in J; [done|].
           intros x (y & -> & _)%list_elem_of_fmap.
           intros [_ [=]]%logger_append_empty.
        -- by rewrite decide_False.
Qed.

Lemma logger_length_app (a b : string) :
  String.length (a +:+ b) = String.length a + String.length b.
Proof. induction a as [|c a IH]; simpl; [done|]. by f_equal. Qed.

Lemma logger_length_zeros n : String.length (zeros n) = n.
Proof. induction n as [|n IH]; simpl; [done|]. by f_equal. Qed.

Lemma logger_length_padStart0 n (x : string) :
  String.length (padStart0 n x) = n `max` String.length x.
Proof. unfold padStart0. rewrite logger_length_app, logger_length_zeros. lia. Qed.


Lemma logger_pretty_width (n : nat) :
  (n < 1000 → String.length (pretty n) ≤ 3) ∧
  (n < 100 → String.length (pretty n) ≤ 2).
Proof.
  assert (forallb (λ n, (String.length (pretty n) <=? 3) &&
                        ((100 <=? n) || (String.length (pretty n) <=? 2)))
            (seq 0 1000) = true) as H by (vm_compute; reflexivity).
  rewrite forallb_forall in H.
  destruct (decide (n < 1000)) as [Hn|Hn]; [|lia].
  specialize (H n). rewrite in_seq in H. specialize (H ltac:(lia)).
  apply andb_true_iff in H as [H3 H2]. apply Nat.leb_le in H3.
  apply orb_true_iff in H2 as [H2|H2].
  - apply Nat.leb_le in H2. lia.
  - apply Nat.leb_le in H2. lia.
Qed.

(** X19 (getTimeStamp): for a time of day the stamp has 14 characters,
    whatever the number of digits of its parts. *)
Theorem logger_timestamp_width (hours minutes seconds milliseconds : nat) :
  hours < 24 → minutes < 60 → seconds < 60 → milliseconds < 1000 →
  String.length (getTimeStamp hours minutes seconds milliseconds) = 14.
Proof.
  intros Hh Hm Hs Hms. unfold getTimeStamp.
  rewrite !logger_length_app, !logger_length_padStart0. cbn [String.length].
  pose proof (proj2 (logger_pretty_width hours) ltac:(lia)).
  pose proof (proj2 (logger_pretty_width minutes) ltac:(lia)).
  pose proof (proj2 (logger_pretty_width seconds) ltac:(lia)).
  pose proof (proj1 (logger_pretty_width milliseconds) ltac:(lia)).
  lia.
Qed.

End LoggerFacts.

Section LoggerWitnesses.
Local Open Scope nat_scope.

Lemma logger_hierarchy_is_flat_witness :
  let s := Logger.steps (pretty : nat → string)
             [Logger.OpCreate "net" (Logger.baseLogger (V:=nat))] Logger.initState in
  let child := (Logger.create (V:=nat) "net" Logger.initState (Logger.baseLogger (V:=nat))).1 in
  is_Some (Logger.heap s !! child) ∧
  Logger.getRootLogger s (Logger.getRootLogger s child) =
    Logger.getRootLogger s child.
Proof.
  intros s child.
  assert (is_Some (Logger.heap s !! child)) as H by (vm_compute; eauto).
  split; [exact H|].
  exact (proj1 (proj1 (proj2 (logger_hierarchy_is_flat pretty
           [Logger.OpCreate "net" (Logger.baseLogger (V:=nat))])) child H)).
Defined.

Lemma logger_global_fields_shared_witness :
  let s := Logger.steps (pretty : nat → string)
             [Logger.OpCreate "net" (Logger.baseLogger (V:=nat))] Logger.initState in
  let child := (Logger.create (V:=nat) "net" Logger.initState (Logger.baseLogger (V:=nat))).1 in
  is_Some (Logger.heap s !! child) ∧
  Logger.sameRoot s child (Logger.baseLogger (V:=nat)) ∧
  Logger.get (Logger.getAllRequiredFields
                (Logger.setGlobalRequiredFields [("uid", 7)] s child)
                (Logger.baseLogger (V:=nat))) "uid" = Some 7.
Proof.
  intros s child.
  assert (is_Some (Logger.heap s !! child)) as H by (vm_compute; eauto).
  assert (Logger.sameRoot s child (Logger.baseLogger (V:=nat))) as R
    by (vm_compute; reflexivity).
  split; [exact H|]. split; [exact R|].
  exact (logger_global_fields_shared pretty
           [Logger.OpCreate "net" (Logger.baseLogger (V:=nat))] [("uid", 7)]
           child (Logger.baseLogger (V:=nat)) "uid" H R).
Defined.

Lemma logger_remove_required_fields_witness :
  let s := Logger.steps (pretty : nat → string)
             [Logger.OpCreate "net" (Logger.baseLogger (V:=nat));
              Logger.OpSetRequiredFields [("uid", 7)] (Logger.baseLogger (V:=nat))]
             Logger.initState in
  let child := (Logger.create (V:=nat) "net" Logger.initState (Logger.baseLogger (V:=nat))).1 in
  child ≠ (Logger.baseLogger (V:=nat)) ∧
  Logger.getAllRequiredFields
    (Logger.removeRequiredFields ["uid"] s (Logger.baseLogger (V:=nat))) child =
  Logger.getAllRequiredFields s child.
Proof.
  intros s child.
  assert (child ≠ (Logger.baseLogger (V:=nat))) as H by (vm_compute; lia).
  split; [exact H|].
  exact (proj2 (logger_remove_required_fields pretty
           [Logger.OpCreate "net" (Logger.baseLogger (V:=nat));
            Logger.OpSetRequiredFields [("uid", 7)] (Logger.baseLogger (V:=nat))]
           ["uid"] (Logger.baseLogger (V:=nat)) child "uid") H).
Defined.

Lemma logger_remove_global_fields_witness :
  let s := Logger.steps (pretty : nat → string)
             [Logger.OpCreate "net" (Logger.baseLogger (V:=nat));
              Logger.OpSetGlobalRequiredFields [("uid", 7)] (Logger.baseLogger (V:=nat))]
             Logger.initState in
  let child := (Logger.create (V:=nat) "net" Logger.initState (Logger.baseLogger (V:=nat))).1 in
  is_Some (Logger.heap s !! child) ∧
  Logger.sameRoot s child (Logger.baseLogger (V:=nat)) ∧
  Logger.get (Logger.getAllRequiredFields
                (Logger.clearGlobalRequiredFields s child)
                (Logger.baseLogger (V:=nat))) "uid" =
    Logger.get (Logger.localFields s (Logger.baseLogger (V:=nat))) "uid".
Proof.
  intros s child.
  assert (is_Some (Logger.heap s !! child)) as H by (vm_compute; eauto).
  assert (Logger.sameRoot s child (Logger.baseLogger (V:=nat))) as R
    by (vm_compute; reflexivity).
  split; [exact H|]. split; [exact R|].
  exact (proj2 (logger_remove_global_fields pretty
           [Logger.OpCreate "net" (Logger.baseLogger (V:=nat));
            Logger.OpSetGlobalRequiredFields [("uid", 7)] (Logger.baseLogger (V:=nat))]
           ["uid"] child (Logger.baseLogger (V:=nat)) "uid" H R)).
Defined.

Lemma logger_error_callback_witness :
  let s := Logger.steps (pretty : nat → string)
             [Logger.OpCreate "net" (Logger.baseLogger (V:=nat))] Logger.initState in
  let child := (Logger.create (V:=nat) "net" Logger.initState (Logger.baseLogger (V:=nat))).1 in
  let f : Logger.ErrorCallback := λ _ _, false in
  is_Some (Logger.heap s !! (Logger.baseLogger (V:=nat))) ∧
  Logger.sameRoot s (Logger.baseLogger (V:=nat)) child ∧
  Logger.invoked
    (Logger.error pretty "[00:00:00.000]" "[00:00:00.001]" [5]
       (Logger.registerErrorCallback (Some f) s (Logger.baseLogger (V:=nat))) child) =
  Logger.invoked s ++
    [({| Logger.ctx_moduleName := Logger.moduleNameOf s child;
         Logger.ctx_requiredFields := Logger.getAllRequiredFields s child;
         Logger.ctx_timestamp := "[00:00:00.001]" |}, [5])].
Proof.
  intros s child f.
  assert (is_Some (Logger.heap s !! (Logger.baseLogger (V:=nat)))) as H
    by (vm_compute; eauto).
  assert (Logger.sameRoot s (Logger.baseLogger (V:=nat)) child) as R
    by (vm_compute; reflexivity).
  split; [exact H|]. split; [exact R|].
  exact (proj1 (logger_error_callback pretty
           [Logger.OpCreate "net" (Logger.baseLogger (V:=nat))] f
           "[00:00:00.000]" "[00:00:00.001]" [5]
           (Logger.baseLogger (V:=nat)) child H R)).
Defined.

Lemma logger_timestamp_width_witness :
  9 < 24 ∧ 5 < 60 ∧ 7 < 60 ∧ 42 < 1000 ∧
  String.length (Logger.getTimeStamp 9 5 7 42) = 14.
Proof.
  assert (9 < 24) as H1 by lia. assert (5 < 60) as H2 by lia.
  assert (7 < 60) as H3 by lia. assert (42 < 1000) as H4 by lia.
  repeat (split; [assumption|]).
  exact (logger_timestamp_width 9 5 7 42 H1 H2 H3 H4).
Defined.

Lemma logger_prefix_shape_witness :
  let s := Logger.steps (pretty : nat → string)
             [Logger.OpSetGlobalRequiredFields [("b", 1); ("2", 2)]
                (Logger.baseLogger (V:=nat));
              Logger.OpSetRequiredFields [("1", 3)]
                (Logger.baseLogger (V:=nat))]
             Logger.initState in
  let fs := Logger.getAllRequiredFields s (Logger.baseLogger (V:=nat)) in
  (fs.*1 !! 0 = Some "1" ∧ fs.*1 !! 1 = Some "2" ∧ 0 < 1 ∧
   Logger.arrayIndex "2" = Some 2%N) ∧
  ∃ m, Logger.arrayIndex "1" = Some m ∧ (m < 2)%N.
Proof.
  intros s fs.
  assert (fs.*1 !! 0 = Some "1") as H1 by (vm_compute; reflexivity).
  assert (fs.*1 !! 1 = Some "2") as H2 by (vm_compute; reflexivity).
  assert (0 < 1) as H3 by lia.
  assert (Logger.arrayIndex "2" = Some 2%N) as H4
    by (vm_compute; reflexivity).
  split; [done|].
  exact (proj1 (proj2 (logger_prefix_shape pretty s ""
                         (Logger.baseLogger (V:=nat))))
           0 1 "1" "2" 2%N H1 H2 H3 H4).
Defined.

End LoggerWitnesses.
